(** * buildTree.mjs: a flat list of nodes rearranged into a tree

    The program reads a flat array of node records, each naming its parent
    ([parentId]) and its left neighbour ([previousSiblingId]), and rebuilds
    the nested tree in three passes over two plain JavaScript objects,
    [references] and [metaData].  This file embeds the three passes as Rocq
    functions and proves what they compute.

    Modelling decisions, all taken from the source:
    - [references] and [metaData] are plain objects used as maps.  A property
      key is a string; reading [references[null]] reads the property
      ["null"].  Keys are enumerated by [Object.keys] with array indices
      first, in ascending order, then the other keys in insertion order.
      [JsObject.get] and [JsObject.set] are the reads and writes of own
      properties.  The program does exactly these on every input none of
      whose identifiers is a property name of [Object.prototype]
      ([prototype_free]).  On other inputs a read can find an inherited
      value and a write to ["__proto__"] replaces the prototype instead of
      making a property; the statements that depend on it carry
      [prototype_free] as a hypothesis.
    - line 111, which serialises [tree], is not part of the model: the
      statements are about the three passes of lines 37-108.
    - the objects stored in [references] are shared: [children] and [tree]
      hold references to them.  Every such object sits in [references] under
      its own [nodeId], so a reference is modelled by that key.
    - the [while] loop of the third pass is given fuel; running out of fuel
      stands for a loop that does not end.
    - a property read or write on [undefined] throws a [TypeError]. *)

From Stdlib Require Import List String Ascii Bool Arith NArith Lia Permutation.
Import ListNotations.
Local Open Scope string_scope.
Local Open Scope list_scope.

(** ** Plain objects used as maps *)

Module JsObject.

Definition t (V : Type) : Type := list (string * V).

Section Operations.
Context {V : Type}.

Definition empty : t V := [].

(** [o[k]], for a key [k] that is an own property of [o] or that the
    prototype of [o] does not resolve. *)
Fixpoint get (k : string) (o : t V) : option V :=
  match o with
  | [] => None
  | (k', v) :: o' => if String.eqb k k' then Some v else get k o'
  end.

(** [o[k] = v], for a key [k] other than ["__proto__"]: an existing
    property keeps its place, a new one goes last. *)
Fixpoint set (k : string) (v : V) (o : t V) : t V :=
  match o with
  | [] => [(k, v)]
  | (k', v') :: o' =>
      if String.eqb k k' then (k, v) :: o' else (k', v') :: set k v o'
  end.

(** The own properties in creation order. *)
Definition own_keys (o : t V) : list string := map fst o.
End Operations.

(** *** The order of [Object.keys] *)

Definition digit (c : ascii) : option N :=
  let n := N_of_ascii c in
  if ((48 <=? n) && (n <=? 57))%N then Some (n - 48)%N else None.

Fixpoint digits (s : string) (acc : N) : option N :=
  match s with
  | EmptyString => Some acc
  | String c s' =>
      match digit c with
      | Some d => digits s' (10 * acc + d)%N
      | None => None
      end
  end.

(** A key is an array index when it is the canonical decimal form of an
    integer below [2^32 - 1]. *)
Definition array_index (s : string) : option N :=
  match s with
  | EmptyString => None
  | String c s' =>
      if (Ascii.eqb c "0" && negb (String.eqb s' ""))%bool then None
      else match digits s 0%N with
           | Some n => if (n <? 4294967295)%N then Some n else None
           | None => None
           end
  end.

Definition is_array_index (s : string) : bool :=
  match array_index s with Some _ => true | None => false end.

Fixpoint insert_index (x : N * string) (l : list (N * string))
  : list (N * string) :=
  match l with
  | [] => [x]
  | y :: l' =>
      if (fst x <=? fst y)%N then x :: l else y :: insert_index x l'
  end.

Definition sort_index (l : list (N * string)) : list (N * string) :=
  fold_right insert_index [] l.

Fixpoint index_keys (ks : list string) : list (N * string) :=
  match ks with
  | [] => []
  | k :: ks' =>
      match array_index k with
      | Some n => (n, k) :: index_keys ks'
      | None => index_keys ks'
      end
  end.

(** [Object.keys(o)] *)
Definition keys {V : Type} (o : t V) : list string :=
  map snd (sort_index (index_keys (own_keys o)))
    ++ filter (fun k => negb (is_array_index k)) (own_keys o).

End JsObject.

(** ** Data model *)

(** The records of the input array. *)
Record NodeInput : Type := {
  nodeId : string;
  name : string;
  parentId : option string;
  previousSiblingId : option string
}.

(** [{...node, children: []}]: the input record with its array of children,
    which holds references to other entries of [references]. *)
Record NodeRecord : Type := {
  node : NodeInput;
  children : list string
}.

Record NodeMeta : Type := {
  isLastNode : bool;
  childrenAreSorted : bool
}.

Definition set_children (r : NodeRecord) (c : list string) : NodeRecord :=
  {| node := node r; children := c |}.

Definition set_isLastNode (m : NodeMeta) (b : bool) : NodeMeta :=
  {| isLastNode := b; childrenAreSorted := childrenAreSorted m |}.

Definition set_childrenAreSorted (m : NodeMeta) (b : bool) : NodeMeta :=
  {| isLastNode := isLastNode m; childrenAreSorted := b |}.

(** The property key that [o[id]] reads when [id] is a string or [null]. *)
Definition property_key (id : option string) : string :=
  match id with
  | Some s => s
  | None => "null"
  end.

(** [if (id)]: [null] and the empty string are falsy. *)
Definition truthy (id : option string) : bool :=
  match id with
  | Some s => negb (String.eqb s "")
  | None => false
  end.

(** The property names that an object literal inherits from
    [Object.prototype].  A read of such a name finds a value where no node
    was stored, and a write to ["__proto__"] stores no property. *)
Definition inherited (k : string) : bool :=
  existsb (String.eqb k)
    ["__proto__"; "constructor"; "hasOwnProperty"; "isPrototypeOf";
     "propertyIsEnumerable"; "toLocaleString"; "toString"; "valueOf";
     "__defineGetter__"; "__defineSetter__"; "__lookupGetter__";
     "__lookupSetter__"].

(** The variables of [buildTree]. *)
Record State : Type := {
  references : JsObject.t NodeRecord;
  metaData : JsObject.t NodeMeta;
  tree : list string;
  rootTreeIsSorted : bool
}.

Definition set_references (st : State) (r : JsObject.t NodeRecord) : State :=
  {| references := r; metaData := metaData st;
     tree := tree st; rootTreeIsSorted := rootTreeIsSorted st |}.

Definition set_metaData (st : State) (m : JsObject.t NodeMeta) : State :=
  {| references := references st; metaData := m;
     tree := tree st; rootTreeIsSorted := rootTreeIsSorted st |}.

Definition set_tree (st : State) (t : list string) : State :=
  {| references := references st; metaData := metaData st;
     tree := t; rootTreeIsSorted := true |}.

(** ** Outcomes *)

Inductive outcome (A : Type) : Type :=
| Done (a : A)
| TypeError
| OutOfFuel.

Arguments Done {A} a.
Arguments TypeError {A}.
Arguments OutOfFuel {A}.

Definition bind {A B : Type} (c : outcome A) (k : A -> outcome B)
  : outcome B :=
  match c with
  | Done a => k a
  | TypeError => TypeError
  | OutOfFuel => OutOfFuel
  end.

Notation "x <- c ;; k" := (bind c (fun x => k))
  (at level 61, c at next level, right associativity).

(** [l.forEach(f)] over a state, stopping at the first exception. *)
Fixpoint forEach {A S : Type} (f : S -> A -> outcome S) (l : list A) (st : S)
  : outcome S :=
  match l with
  | [] => Done st
  | a :: l' => st' <- f st a ;; forEach f l' st'
  end.

(** ** The three passes *)

Definition initial : State :=
  {| references := JsObject.empty; metaData := JsObject.empty;
     tree := []; rootTreeIsSorted := false |}.

(** Lines 37-40. *)
Definition index_node (st : State) (n : NodeInput) : State :=
  {| references :=
       JsObject.set (nodeId n) {| node := n; children := [] |} (references st);
     metaData :=
       JsObject.set (nodeId n)
         {| isLastNode := true; childrenAreSorted := false |} (metaData st);
     tree := tree st;
     rootTreeIsSorted := rootTreeIsSorted st |}.

Definition phase1 (unsortedNodes : list NodeInput) : State :=
  fold_left index_node unsortedNodes initial.

(** Lines 59-63.  Both reads are of own properties: on an input with an
    identifier that [Object.prototype] resolves, line 60 can find a value
    where line 61 finds none, and line 62 throws. *)
Definition mark_previous (st : State) (n : NodeInput) : outcome State :=
  let k := property_key (previousSiblingId n) in
  match JsObject.get k (references st) with
  | Some _ =>
      match JsObject.get k (metaData st) with
      | Some previousSiblingMeta =>
          Done (set_metaData st
                  (JsObject.set k (set_isLastNode previousSiblingMeta false)
                     (metaData st)))
      | None => TypeError
      end
  | None => Done st
  end.

Definition phase2 (unsortedNodes : list NodeInput) (st : State)
  : outcome State :=
  forEach mark_previous unsortedNodes st.

(** Lines 92-95: the [while] loop, with [sortedChildren] as accumulator.
    The loop goes from entry to entry until line 94 reads a key that is no
    own property. *)
Fixpoint walk (fuel : nat) (refs : JsObject.t NodeRecord)
  (nodeRef : option NodeRecord) (sortedChildren : list string)
  : outcome (list string) :=
  match nodeRef with
  | None => Done sortedChildren
  | Some r =>
      match fuel with
      | O => OutOfFuel
      | S fuel' =>
          walk fuel' refs
            (JsObject.get (property_key (previousSiblingId (node r))) refs)
            (nodeId (node r) :: sortedChildren)
      end
  end.

(** Lines 86-87: [true] when the callback returns early. *)
Definition already_sorted (st : State) (parentRef : option NodeRecord)
  (parentMeta : option NodeMeta) : outcome bool :=
  match parentRef with
  | Some _ =>
      match parentMeta with
      | Some m => Done (childrenAreSorted m)
      | None => TypeError
      end
  | None => Done (rootTreeIsSorted st)
  end.

(** Lines 99-104.  Line 100 throws when [references[parentId]] is no own
    property. *)
Definition place (st : State) (initialNodeRef : NodeRecord)
  (sortedChildren : list string) : outcome State :=
  if truthy (parentId (node initialNodeRef)) then
    let k := property_key (parentId (node initialNodeRef)) in
    match JsObject.get k (references st) with
    | Some p =>
        Done (set_references st
                (JsObject.set k (set_children p sortedChildren)
                   (references st)))
    | None => TypeError
    end
  else Done (set_tree st sortedChildren).

(** Line 105. *)
Definition mark_sorted (st : State) (k : string)
  (parentRef : option NodeRecord) (parentMeta : option NodeMeta)
  : outcome State :=
  match parentRef with
  | Some _ =>
      match parentMeta with
      | Some m =>
          Done (set_metaData st
                  (JsObject.set k (set_childrenAreSorted m true)
                     (metaData st)))
      | None => TypeError
      end
  | None => Done st
  end.

(** Lines 75-107: the callback of the third pass. *)
Definition assemble_node (fuel : nat) (st : State) (id : string)
  : outcome State :=
  match JsObject.get id (metaData st) with
  | None => TypeError
  | Some nodeMeta =>
      if isLastNode nodeMeta then
        match JsObject.get id (references st) with
        | None => TypeError
        | Some initialNodeRef =>
            let k := property_key (parentId (node initialNodeRef)) in
            let parentRef := JsObject.get k (references st) in
            let parentMeta := JsObject.get k (metaData st) in
            skip <- already_sorted st parentRef parentMeta ;;
            if (skip : bool) then Done st
            else
              sortedChildren <-
                walk fuel (references st) (Some initialNodeRef) [] ;;
              st1 <- place st initialNodeRef sortedChildren ;;
              mark_sorted st1 k parentRef parentMeta
        end
      else Done st
  end.

Definition phase3 (fuel : nat) (st : State) : outcome State :=
  forEach (assemble_node fuel) (JsObject.keys (references st)) st.

(** Lines 22-108: the three passes, from the parsed array to the variables
    that line 111 serialises. *)
Definition buildTree (fuel : nat) (unsortedNodes : list NodeInput)
  : outcome State :=
  st <- phase2 unsortedNodes (phase1 unsortedNodes) ;;
  phase3 fuel st.

(** ** Small runs *)

Definition mk (i : string) (p s : option string) : NodeInput :=
  {| nodeId := i; name := i; parentId := p; previousSiblingId := s |}.


(** ** Vocabulary of the statements *)

(** No [nodeId], [parentId] or [previousSiblingId] of the input is a
    property name of [Object.prototype]: every key that the three passes
    read or write is then an own property or is absent, as [JsObject.get]
    and [JsObject.set] have it. *)
Definition prototype_free (nodes : list NodeInput) : bool :=
  forallb (fun n =>
             negb (inherited (nodeId n))
             && negb (inherited (property_key (parentId n)))
             && negb (inherited (property_key (previousSiblingId n))))
    nodes.

(** The last record of the input that carries the identifier [k]. *)
Definition latest (k : string) (nodes : list NodeInput) : option NodeInput :=
  find (fun n => String.eqb (nodeId n) k) (rev nodes).

(** [n] names the entry [k] as its previous sibling, as line 60 reads it. *)
Definition names (k : string) (n : NodeInput) : bool :=
  String.eqb (property_key (previousSiblingId n)) k.

Definition fresh (n : NodeInput) : NodeRecord :=
  {| node := n; children := [] |}.

Definition fresh_meta : NodeMeta :=
  {| isLastNode := true; childrenAreSorted := false |}.

(** [references] and [metaData] have the same properties. *)
Definition parallel (st : State) : Prop :=
  forall k, JsObject.get k (references st) = None
            <-> JsObject.get k (metaData st) = None.

(** A run of siblings: the first node has [previous] as its
    [previousSiblingId], every other one names the node to its left. *)
Fixpoint linked (previous : option string) (c : list NodeInput) : Prop :=
  match c with
  | [] => True
  | n :: c' => previousSiblingId n = previous /\ linked (Some (nodeId n)) c'
  end.

(** A state of the third pass over the index of [nodes]: the entries are the
    latest records and [isLastNode] is what the second pass left. *)
Record shaped (nodes : list NodeInput) (st : State) : Prop := {
  shaped_references : forall k,
    option_map node (JsObject.get k (references st)) = latest k nodes;
  shaped_metaData : forall k,
    option_map isLastNode (JsObject.get k (metaData st))
    = option_map (fun _ => negb (existsb (names k) nodes)) (latest k nodes)
}.

(** What the third pass never undoes. *)
Record extends (st st' : State) : Prop := {
  ext_ref_keys :
    JsObject.own_keys (references st') = JsObject.own_keys (references st);
  ext_meta_keys :
    JsObject.own_keys (metaData st') = JsObject.own_keys (metaData st);
  ext_node : forall k,
    option_map node (JsObject.get k (references st'))
    = option_map node (JsObject.get k (references st));
  ext_last : forall k,
    option_map isLastNode (JsObject.get k (metaData st'))
    = option_map isLastNode (JsObject.get k (metaData st));
  ext_sorted : forall k m,
    JsObject.get k (metaData st) = Some m -> childrenAreSorted m = true ->
    exists m', JsObject.get k (metaData st') = Some m'
               /\ childrenAreSorted m' = true;
  ext_root :
    rootTreeIsSorted st = true -> rootTreeIsSorted st' = true
}.

(** The callback of the third pass returns at once on [k]: the node is not a
    last node, or its group is marked as sorted. *)
Definition skipped (st : State) (k : string) : Prop :=
  exists m,
    JsObject.get k (metaData st) = Some m
    /\ (isLastNode m = false
        \/ exists r,
             JsObject.get k (references st) = Some r
             /\ already_sorted st
                  (JsObject.get (property_key (parentId (node r)))
                     (references st))
                  (JsObject.get (property_key (parentId (node r)))
                     (metaData st))
                = Done true).

(** What a call that returns normally has done. *)
Inductive step_of (fuel : nat) (st : State) (k : string) (st' : State)
  : Prop :=
| step_skip : st' = st -> skipped st k -> step_of fuel st k st'
| step_parent r m l pk p pm :
    JsObject.get k (metaData st) = Some m -> isLastNode m = true ->
    JsObject.get k (references st) = Some r ->
    pk = property_key (parentId (node r)) ->
    truthy (parentId (node r)) = true ->
    JsObject.get pk (references st) = Some p ->
    JsObject.get pk (metaData st) = Some pm ->
    childrenAreSorted pm = false ->
    walk fuel (references st) (Some r) [] = Done l ->
    st' = {| references := JsObject.set pk (set_children p l) (references st);
             metaData :=
               JsObject.set pk (set_childrenAreSorted pm true) (metaData st);
             tree := tree st;
             rootTreeIsSorted := rootTreeIsSorted st |} ->
    step_of fuel st k st'
| step_root r m l pk :
    JsObject.get k (metaData st) = Some m -> isLastNode m = true ->
    JsObject.get k (references st) = Some r ->
    pk = property_key (parentId (node r)) ->
    truthy (parentId (node r)) = false ->
    JsObject.get pk (references st) = None ->
    rootTreeIsSorted st = false ->
    walk fuel (references st) (Some r) [] = Done l ->
    st' = set_tree st l ->
    step_of fuel st k st'
| step_root_shadowed r m l pk p pm :
    JsObject.get k (metaData st) = Some m -> isLastNode m = true ->
    JsObject.get k (references st) = Some r ->
    pk = property_key (parentId (node r)) ->
    truthy (parentId (node r)) = false ->
    JsObject.get pk (references st) = Some p ->
    JsObject.get pk (metaData st) = Some pm ->
    childrenAreSorted pm = false ->
    walk fuel (references st) (Some r) [] = Done l ->
    st' = {| references := references st;
             metaData :=
               JsObject.set pk (set_childrenAreSorted pm true) (metaData st);
             tree := l;
             rootTreeIsSorted := true |} ->
    step_of fuel st k st'.

(** ** Sibling groups and well-formed inputs *)

Definition same_id (a b : option string) : bool :=
  match a, b with
  | Some x, Some y => String.eqb x y
  | None, None => true
  | _, _ => false
  end.

(** The sibling group of [pid]: the nodes that share this [parentId]. *)
Definition group (pid : option string) (nodes : list NodeInput)
  : list NodeInput :=
  filter (fun n => same_id (parentId n) pid) nodes.

(** Every sibling group is one chain that ends at a node whose
    [previousSiblingId] is [null]. *)
Definition chains (nodes : list NodeInput) : Prop :=
  forall n, In n nodes ->
    exists c, Permutation c (group (parentId n) nodes) /\ linked None c.

Definition well_formed (nodes : list NodeInput) : Prop :=
  NoDup (map nodeId nodes) /\ chains nodes.

(** Every [parentId] that is not [null] is the [nodeId] of a node. *)
Definition resolved (nodes : list NodeInput) : Prop :=
  forall n p, In n nodes -> parentId n = Some p -> In p (map nodeId nodes).

(** No [nodeId] is the empty string or the string ["null"]. *)
Definition plain_ids (nodes : list NodeInput) : Prop :=
  forall n, In n nodes -> nodeId n <> "" /\ nodeId n <> "null".

(** The nodes of [g] that the second pass left marked as last nodes. *)
Definition last_nodes (st : State) (g : list NodeInput) : list NodeInput :=
  filter (fun n => match JsObject.get (nodeId n) (metaData st) with
                   | Some m => isLastNode m
                   | None => false
                   end) g.

(** The steps of line 94 go down along some rank, so they form no cycle.
    A step goes from a node to the node whose [nodeId] is the key that line
    94 reads: the [previousSiblingId], or ["null"] when it is [null]. *)
Definition acyclic (nodes : list NodeInput) : Prop :=
  exists rank : string -> nat,
    forall n m, In n nodes -> In m nodes ->
      property_key (previousSiblingId n) = nodeId m ->
      rank (nodeId m) < rank (nodeId n).


(** ** Invariants of the third pass *)




(** ** Inputs used as examples *)

Definition chain_ABCD : list NodeInput :=
  [mk "P" None None; mk "D" (Some "P") (Some "C"); mk "B" (Some "P") (Some "A");
   mk "C" (Some "P") (Some "B"); mk "A" (Some "P") None].

Definition cyclic_chain : list NodeInput :=
  [mk "A" None (Some "B"); mk "B" None (Some "A"); mk "C" None (Some "B")].

Definition dangling_parent : list NodeInput := [mk "A" (Some "X") None].

Definition self_named : list NodeInput := [mk "A" None (Some "A")].

Definition null_id : list NodeInput := [mk "null" None None].



Definition small_tree : list NodeInput :=
  [mk "P" None None; mk "A" (Some "P") None; mk "B" (Some "P") (Some "A")].

Definition two_last : list NodeInput :=
  [mk "P" None None; mk "A" (Some "P") None; mk "B" (Some "P") (Some "A");
   mk "C" (Some "P") (Some "A")].

Definition earlier_A : NodeInput := mk "A" None None.
Definition later_A : NodeInput := mk "A" (Some "P") None.
Definition duplicated : list NodeInput := [mk "P" None None; earlier_A; later_A].

(** The state that the second pass hands over, and the one that the third
    pass leaves. *)
Definition detected (nodes : list NodeInput) : State :=
  match phase2 nodes (phase1 nodes) with
  | Done st => st
  | _ => initial
  end.

Definition assembled_with (fuel : nat) (st : State) : State :=
  match phase3 fuel st with
  | Done st' => st'
  | _ => st
  end.

(** ** The statements that the program does not meet, as they are worded *)

(** A node is a last node iff no other node names it. *)
Definition last_iff_unnamed_by_others (nodes : list NodeInput) : Prop :=
  forall st, phase2 nodes (phase1 nodes) = Done st ->
  forall k m, JsObject.get k (metaData st) = Some m ->
    (isLastNode m = true
     <-> forall n, In n nodes -> nodeId n <> k ->
           previousSiblingId n <> Some k).

(** The third pass comes to an end, with a tree or with a fault. *)
Definition assembly_terminates (nodes : list NodeInput) : Prop :=
  exists fuel, buildTree fuel nodes <> OutOfFuel.



(** A sibling run under one parent comes out as the [children] of that
    parent, in order. *)
Definition runs_in_order (nodes : list NodeInput) : Prop :=
  forall p run,
    run <> [] ->
    (forall n, In n run -> In n nodes /\ parentId n = Some p) ->
    linked None run ->
    In p (map nodeId nodes) ->
    exists fuel st r,
      buildTree fuel nodes = Done st
      /\ JsObject.get p (references st) = Some r
      /\ children r = map nodeId run.


(** ** Vocabulary of the further properties *)

(** The identifiers of a list, each at the place of its first occurrence. *)
Fixpoint first_occurrences (ids : list string) : list string :=
  match ids with
  | [] => []
  | k :: rest =>
      k :: filter (fun x => negb (String.eqb x k)) (first_occurrences rest)
  end.

(** [x] is not among the keys [ks]. *)
Definition unseen (ks : list string) (x : string) : bool :=
  negb (existsb (String.eqb x) ks).

(** The array that a walk from the entry [k] builds: [k] comes last, each
    element is the entry that its right neighbour names, and what the first
    element names is no entry. *)
Inductive backward (refs : JsObject.t NodeRecord)
  : string -> list string -> Prop :=
| backward_first k r :
    JsObject.get k refs = Some r ->
    JsObject.get (property_key (previousSiblingId (node r))) refs = None ->
    backward refs k [k]
| backward_next k r l :
    JsObject.get k refs = Some r ->
    backward refs (property_key (previousSiblingId (node r))) l ->
    backward refs k (l ++ [k]).

(** Every entry sits under its own [nodeId]. *)
Definition keyed (refs : JsObject.t NodeRecord) : Prop :=
  forall k r, JsObject.get k refs = Some r -> nodeId (node r) = k.

(** [k] is the key of a last node. *)
Definition last_key (st : State) (k : string) : Prop :=
  exists m, JsObject.get k (metaData st) = Some m /\ isLastNode m = true.

(** The [children] that are flagged as sorted in [st] are the same in
    [st']. *)
Definition frozen (st st' : State) : Prop :=
  forall k m r,
    JsObject.get k (metaData st) = Some m -> childrenAreSorted m = true ->
    JsObject.get k (references st) = Some r ->
    exists r', JsObject.get k (references st') = Some r'
               /\ children r' = children r.



Definition empty_parent : list NodeInput :=
  [mk "" None None; mk "A" (Some "") None].





(** The arrays of a state of the third pass: each is empty or the walk from
    a last node, whose [parentId] is falsy for the root array and the key of
    the entry for its [children]. *)
Definition root_array_ok (st : State) : Prop :=
  tree st = []
  \/ exists d rd,
       backward (references st) d (tree st)
       /\ last_key st d
       /\ JsObject.get d (references st) = Some rd
       /\ truthy (parentId (node rd)) = false.

Definition children_ok (st : State) : Prop :=
  forall p rp, JsObject.get p (references st) = Some rp ->
    children rp = []
    \/ exists d rd,
         backward (references st) d (children rp)
         /\ last_key st d
         /\ JsObject.get d (references st) = Some rd
         /\ parentId (node rd) = Some p /\ p <> "".

(** The [children] of the entry [p] are not built yet. *)
Definition waiting (nodes : list NodeInput) (p : string) (st : State)
  : Prop :=
  shaped nodes st
  /\ exists rp mp,
      JsObject.get p (references st) = Some rp
      /\ JsObject.get p (metaData st) = Some mp
      /\ childrenAreSorted mp = false.

(** Every [parentId] that [if (parentId)] takes for one is the [nodeId] of
    a node. *)
Definition parents_resolve (nodes : list NodeInput) : Prop :=
  forall n p, In n nodes -> parentId n = Some p -> p <> "" ->
    In p (map nodeId nodes).

(** Every node is named by some node: the index has no last node. *)
Definition all_named (nodes : list NodeInput) : Prop :=
  forall n, In n nodes -> existsb (names (nodeId n)) nodes = true.

Definition two_cycle : list NodeInput :=
  [mk "A" None (Some "B"); mk "B" None (Some "A")].

(** * Properties *)

(** ** Objects *)

Module JsObjectFacts.
Import JsObject.

Section Facts.
Context {V : Type}.
Implicit Types (o : t V) (k : string) (v : V).

Lemma get_set_same o k v : get k (set k v o) = Some v.
Proof.
  induction o as [|[k' v'] o IH]; simpl.
  - now rewrite String.eqb_refl.
  - destruct (String.eqb k k') eqn:E; simpl.
    + now rewrite String.eqb_refl.
    + now rewrite E.
Qed.

Lemma get_set_other o k k' v : k <> k' -> get k' (set k v o) = get k' o.
Proof.
  intros Hne. induction o as [|[k0 v0] o IH]; simpl.
  - destruct (String.eqb k' k) eqn:E; [|reflexivity].
    apply String.eqb_eq in E. congruence.
  - destruct (String.eqb k k0) eqn:E; simpl.
    + apply String.eqb_eq in E. subst k0.
      destruct (String.eqb k' k) eqn:E'; [|reflexivity].
      apply String.eqb_eq in E'. congruence.
    + now rewrite IH.
Qed.

Lemma get_set o k k' v :
  get k' (set k v o) = if String.eqb k' k then Some v else get k' o.
Proof.
  destruct (String.eqb k' k) eqn:E.
  - apply String.eqb_eq in E. subst. apply get_set_same.
  - apply String.eqb_neq in E. apply get_set_other. congruence.
Qed.

Lemma get_in o k : get k o <> None <-> In k (own_keys o).
Proof.
  induction o as [|[k' v'] o IH]; simpl.
  - split; [congruence | tauto].
  - destruct (String.eqb k k') eqn:E.
    + apply String.eqb_eq in E. split; [auto | congruence].
    + apply String.eqb_neq in E. rewrite IH. split; [auto|].
      intros [H|H]; congruence.
Qed.

Lemma get_some_in o k v : get k o = Some v -> In k (own_keys o).
Proof. intros H. apply get_in. congruence. Qed.


Lemma own_keys_set_present o k v :
  get k o <> None -> own_keys (set k v o) = own_keys o.
Proof.
  induction o as [|[k' v'] o IH]; simpl; [congruence|].
  destruct (String.eqb k k') eqn:E; simpl; intros H.
  - apply String.eqb_eq in E. now subst.
  - f_equal. now apply IH.
Qed.
End Facts.

Lemma insert_index_in x y l : In y (insert_index x l) <-> y = x \/ In y l.
Proof.
  induction l as [|z l IH]; simpl.
  - intuition congruence.
  - destruct (fst x <=? fst z)%N; simpl; [intuition congruence|].
    rewrite IH. intuition congruence.
Qed.

Lemma sort_index_in y l : In y (sort_index l) <-> In y l.
Proof.
  induction l as [|z l IH]; simpl; [tauto|].
  rewrite insert_index_in, IH. intuition congruence.
Qed.

Lemma index_keys_in n k ks :
  In (n, k) (index_keys ks) <-> In k ks /\ array_index k = Some n.
Proof.
  induction ks as [|k' ks IH]; simpl; [tauto|].
  destruct (array_index k') eqn:E; simpl; rewrite IH.
  - split.
    + intros [H|[H1 H2]]; [inversion H; subst; auto | auto].
    + intros [[H|H] H2]; [subst; left; congruence | auto].
  - split; [intros [H1 H2]; auto|].
    intros [[H|H] H2]; [subst; congruence | auto].
Qed.

(** [Object.keys] enumerates the own properties, each of them. *)
Lemma keys_in {V : Type} (o : t V) k : In k (keys o) <-> In k (own_keys o).
Proof.
  unfold keys. rewrite in_app_iff, filter_In, in_map_iff.
  unfold is_array_index. cbv beta. split.
  - intros [[[n k'] [Hs Hin]]|[H _]]; [|exact H].
    simpl in Hs. subst k'. apply sort_index_in, index_keys_in in Hin.
    tauto.
  - intros H. destruct (array_index k) as [n|] eqn:E.
    + left. exists (n, k). split; [reflexivity|].
      apply sort_index_in, index_keys_in. auto.
    + right. auto.
Qed.

Lemma keys_own {V W : Type} (o : t V) (o' : t W) :
  own_keys o = own_keys o' -> keys o = keys o'.
Proof. unfold keys. now intros ->. Qed.

End JsObjectFacts.

Import JsObjectFacts.

(** ** The first pass: the index *)

Lemma phase1_snoc nodes n :
  phase1 (nodes ++ [n]) = index_node (phase1 nodes) n.
Proof. unfold phase1. now rewrite fold_left_app. Qed.

Lemma latest_snoc k nodes n :
  latest k (nodes ++ [n])
  = if String.eqb (nodeId n) k then Some n else latest k nodes.
Proof. unfold latest. now rewrite rev_app_distr. Qed.

Lemma phase1_references nodes k :
  JsObject.get k (references (phase1 nodes)) = option_map fresh (latest k nodes).
Proof.
  induction nodes as [|n nodes IH] using rev_ind; [reflexivity|].
  rewrite phase1_snoc, latest_snoc. simpl. rewrite get_set, String.eqb_sym.
  now destruct (String.eqb (nodeId n) k).
Qed.

Lemma phase1_metaData nodes k :
  JsObject.get k (metaData (phase1 nodes))
  = option_map (fun _ => fresh_meta) (latest k nodes).
Proof.
  induction nodes as [|n nodes IH] using rev_ind; [reflexivity|].
  rewrite phase1_snoc, latest_snoc. simpl. rewrite get_set, String.eqb_sym.
  now destruct (String.eqb (nodeId n) k).
Qed.

Lemma phase1_root nodes :
  tree (phase1 nodes) = [] /\ rootTreeIsSorted (phase1 nodes) = false.
Proof.
  induction nodes as [|n nodes IH] using rev_ind; [now split|].
  now rewrite phase1_snoc.
Qed.

Lemma phase1_parallel nodes : parallel (phase1 nodes).
Proof.
  intros k. rewrite phase1_references, phase1_metaData.
  now destruct (latest k nodes).
Qed.

Lemma latest_some k nodes n :
  latest k nodes = Some n -> In n nodes /\ nodeId n = k.
Proof.
  unfold latest. intros H. apply find_some in H. destruct H as [H1 H2].
  apply in_rev in H1. apply String.eqb_eq in H2. auto.
Qed.

Lemma latest_none k nodes :
  latest k nodes = None <-> ~ In k (map nodeId nodes).
Proof.
  unfold latest. split.
  - intros H Hin. apply in_map_iff in Hin. destruct Hin as [n [Hn Hin]].
    assert (Hf := find_none _ _ H n (proj1 (in_rev _ _) Hin)).
    simpl in Hf. apply String.eqb_neq in Hf. congruence.
  - intros H. destruct (find _ _) as [n|] eqn:E; [|reflexivity].
    apply find_some in E. destruct E as [H1 H2]. exfalso. apply H.
    apply String.eqb_eq in H2. subst k. apply in_map, in_rev, H1.
Qed.

Lemma NoDup_map_eq {A B : Type} (f : A -> B) (l : list A) x y :
  NoDup (map f l) -> In x l -> In y l -> f x = f y -> x = y.
Proof.
  induction l as [|a l IH]; simpl; [tauto|].
  intros Hnd [Hx|Hx] [Hy|Hy] Hf; inversion Hnd as [|? ? Hni Hnd']; subst.
  - reflexivity.
  - exfalso. apply Hni. rewrite Hf. now apply in_map.
  - exfalso. apply Hni. rewrite <- Hf. now apply in_map.
  - auto.
Qed.

Lemma latest_unique nodes n :
  NoDup (map nodeId nodes) -> In n nodes -> latest (nodeId n) nodes = Some n.
Proof.
  intros Hnd Hin. destruct (latest (nodeId n) nodes) as [n'|] eqn:E.
  - apply latest_some in E. destruct E as [Hin' Hid]. f_equal.
    eapply NoDup_map_eq; eauto.
  - apply latest_none in E. exfalso. apply E. now apply in_map.
Qed.

(** ** The second pass: the last nodes *)

Lemma mark_previous_spec st n :
  parallel st ->
  exists st',
    mark_previous st n = Done st'
    /\ references st' = references st
    /\ tree st' = tree st
    /\ rootTreeIsSorted st' = rootTreeIsSorted st
    /\ forall k,
        JsObject.get k (metaData st')
        = option_map
            (fun m => if names k n then set_isLastNode m false else m)
            (JsObject.get k (metaData st)).
Proof.
  intros Hp. unfold mark_previous, names.
  set (k' := property_key (previousSiblingId n)).
  destruct (JsObject.get k' (references st)) as [r|] eqn:Er.
  - destruct (JsObject.get k' (metaData st)) as [m|] eqn:Em.
    + eexists. split; [reflexivity|]. repeat split. intros k. simpl.
      rewrite get_set, String.eqb_sym.
      destruct (String.eqb k' k) eqn:E.
      * apply String.eqb_eq in E. subst k. now rewrite Em.
      * now destruct (JsObject.get k (metaData st)).
    + apply Hp in Em. congruence.
  - exists st. repeat split. intros k.
    destruct (String.eqb k' k) eqn:E.
    + apply String.eqb_eq in E. subst k. apply Hp in Er. now rewrite Er.
    + now destruct (JsObject.get k (metaData st)).
Qed.

Lemma phase2_spec nodes : forall st,
  parallel st ->
  exists st',
    phase2 nodes st = Done st'
    /\ references st' = references st
    /\ tree st' = tree st
    /\ rootTreeIsSorted st' = rootTreeIsSorted st
    /\ forall k,
        JsObject.get k (metaData st')
        = option_map
            (fun m => if existsb (names k) nodes
                      then set_isLastNode m false else m)
            (JsObject.get k (metaData st)).
Proof.
  induction nodes as [|n nodes IH]; intros st Hp.
  - exists st. repeat split. intros k. simpl.
    now destruct (JsObject.get k (metaData st)).
  - destruct (mark_previous_spec st n Hp) as (st1 & H1 & Hr1 & Ht1 & Hs1 & Hm1).
    assert (Hp1 : parallel st1).
    { intros k. rewrite Hr1, Hm1, (Hp k).
      now destruct (JsObject.get k (metaData st)). }
    destruct (IH st1 Hp1) as (st2 & H2 & Hr2 & Ht2 & Hs2 & Hm2).
    exists st2. unfold phase2 in *. simpl. rewrite H1. simpl.
    split; [exact H2|]. repeat split; try congruence.
    intros k. rewrite Hm2, Hm1. simpl.
    destruct (JsObject.get k (metaData st)) as [m|]; simpl; [|reflexivity].
    destruct (names k n), (existsb (names k) nodes); reflexivity.
Qed.

(** The state handed to the third pass. *)
Lemma detection_spec nodes :
  exists st,
    phase2 nodes (phase1 nodes) = Done st
    /\ references st = references (phase1 nodes)
    /\ tree st = []
    /\ rootTreeIsSorted st = false
    /\ forall k,
        JsObject.get k (metaData st)
        = option_map
            (fun _ => {| isLastNode := negb (existsb (names k) nodes);
                         childrenAreSorted := false |})
            (latest k nodes).
Proof.
  destruct (phase2_spec nodes _ (phase1_parallel nodes))
    as (st & H & Hr & Ht & Hs & Hm).
  destruct (phase1_root nodes) as [Ht0 Hs0].
  exists st. split; [exact H|]. repeat split; try congruence.
  intros k. rewrite Hm, phase1_metaData.
  destruct (latest k nodes); simpl; [|reflexivity].
  now destruct (existsb (names k) nodes).
Qed.

(** ** The third pass: one call of the callback *)

Lemma forEach_invariant {A S : Type} (P : S -> Prop)
  (f : S -> A -> outcome S) (l : list A) :
  (forall st a st', In a l -> P st -> f st a = Done st' -> P st') ->
  forall st st', P st -> forEach f l st = Done st' -> P st'.
Proof.
  induction l as [|a l IH]; simpl; intros Hf st st' HP H.
  - inversion H. now subst.
  - destruct (f st a) as [st1| |] eqn:E; simpl in H; try discriminate.
    apply (IH (fun st0 b st0' Hin => Hf st0 b st0' (or_intror Hin)) st1);
      [|exact H].
    apply (Hf st a); auto.
Qed.

Lemma assemble_node_step fuel st k st' :
  assemble_node fuel st k = Done st' -> step_of fuel st k st'.
Proof.
  unfold assemble_node.
  destruct (JsObject.get k (metaData st)) as [m|] eqn:Em; [|discriminate].
  destruct (isLastNode m) eqn:El.
  2:{ intros H. inversion H. subst. apply step_skip; [reflexivity|].
      exists m. auto. }
  destruct (JsObject.get k (references st)) as [r|] eqn:Er; [|discriminate].
  set (pk := property_key (parentId (node r))).
  destruct (JsObject.get pk (references st)) as [p|] eqn:Ep; simpl.
  - destruct (JsObject.get pk (metaData st)) as [pm|] eqn:Epm; simpl;
      [|discriminate].
    destruct (childrenAreSorted pm) eqn:Es.
    + intros H. inversion H. subst. apply step_skip; [reflexivity|].
      exists m. split; [exact Em|]. right. exists r. split; [exact Er|].
      fold pk. rewrite Ep, Epm. simpl. now rewrite Es.
    + destruct (walk fuel (references st) (Some r) []) as [l| |] eqn:Ew;
        simpl; try discriminate.
      unfold place. destruct (truthy (parentId (node r))) eqn:Et.
      * fold pk. rewrite Ep. simpl. intros H. inversion H.
        eapply step_parent; eauto.
      * simpl. intros H. inversion H.
        eapply step_root_shadowed; eauto.
  - destruct (rootTreeIsSorted st) eqn:Es.
    + intros H. inversion H. subst. apply step_skip; [reflexivity|].
      exists m. split; [exact Em|]. right. exists r. split; [exact Er|].
      fold pk. rewrite Ep. simpl. now rewrite Es.
    + destruct (walk fuel (references st) (Some r) []) as [l| |] eqn:Ew;
        simpl; try discriminate.
      unfold place. destruct (truthy (parentId (node r))) eqn:Et.
      * fold pk. rewrite Ep. discriminate.
      * simpl. intros H. inversion H.
        eapply step_root; eauto.
Qed.

Lemma extends_refl st : extends st st.
Proof. constructor; eauto. Qed.

Lemma extends_trans st1 st2 st3 :
  extends st1 st2 -> extends st2 st3 -> extends st1 st3.
Proof.
  intros [a1 b1 c1 d1 e1 f1] [a2 b2 c2 d2 e2 f2].
  constructor.
  - congruence.
  - congruence.
  - intros k. now rewrite c2.
  - intros k. now rewrite d2.
  - intros k m Hm Hs. destruct (e1 k m Hm Hs) as (m' & Hm' & Hs'). eauto.
  - auto.
Qed.

Lemma extends_mark_sorted st pk pm refs' t b :
  JsObject.get pk (metaData st) = Some pm ->
  JsObject.own_keys refs' = JsObject.own_keys (references st) ->
  (forall k, option_map node (JsObject.get k refs')
             = option_map node (JsObject.get k (references st))) ->
  (rootTreeIsSorted st = true -> b = true) ->
  extends st
    {| references := refs';
       metaData :=
         JsObject.set pk (set_childrenAreSorted pm true) (metaData st);
       tree := t;
       rootTreeIsSorted := b |}.
Proof.
  intros Hpm Hk Hn Hb. constructor; simpl; auto.
  - apply own_keys_set_present. congruence.
  - intros k. rewrite get_set. destruct (String.eqb k pk) eqn:E; auto.
    apply String.eqb_eq in E. subst k. now rewrite Hpm.
  - intros k m Hm Hs. rewrite get_set.
    destruct (String.eqb k pk) eqn:E; eauto.
Qed.

Lemma step_extends fuel st k st' : step_of fuel st k st' -> extends st st'.
Proof.
  intros [-> _|r m l pk p pm Hm Hl Hr Hpk Ht Hp Hpm Hs Hw ->
         |r m l pk Hm Hl Hr Hpk Ht Hp Hs Hw ->
         |r m l pk p pm Hm Hl Hr Hpk Ht Hp Hpm Hs Hw ->].
  - apply extends_refl.
  - apply extends_mark_sorted; auto.
    + apply own_keys_set_present. congruence.
    + intros k0. rewrite get_set. destruct (String.eqb k0 pk) eqn:E; auto.
      apply String.eqb_eq in E. subst k0. now rewrite Hp.
  - constructor; simpl; eauto.
  - apply extends_mark_sorted; auto.
Qed.

Lemma skipped_extends st st' k : extends st st' -> skipped st k -> skipped st' k.
Proof.
  intros [Hrk Hmk Hn Hl Hs Hroot] (m & Hm & H).
  assert (Hl' := Hl k). rewrite Hm in Hl'.
  destruct (JsObject.get k (metaData st')) as [m'|] eqn:Em'; [|discriminate].
  simpl in Hl'. exists m'. split; [first [exact Em' | reflexivity]|].
  destruct H as [H|(r & Hr & Ha)]; [left; congruence|]. right.
  assert (Hn' := Hn k). rewrite Hr in Hn'.
  destruct (JsObject.get k (references st')) as [r'|] eqn:Er'; [|discriminate].
  simpl in Hn'. exists r'. split; [first [exact Er' | reflexivity]|].
  inversion Hn' as [Hnode]. rewrite Hnode.
  set (pk := property_key (parentId (node r))) in *.
  assert (Hn2 := Hn pk).
  destruct (JsObject.get pk (references st)) as [p|] eqn:Ep; simpl in Ha.
  - destruct (JsObject.get pk (metaData st)) as [pm|] eqn:Epm;
      [|discriminate].
    inversion Ha as [Hsorted].
    destruct (Hs pk pm Epm Hsorted) as (pm' & Hpm' & Hs').
    destruct (JsObject.get pk (references st')); [|discriminate].
    rewrite Hpm'. simpl. now rewrite Hs'.
  - destruct (JsObject.get pk (references st')); [discriminate|].
    simpl. inversion Ha as [Hsorted]. now rewrite Hsorted, (Hroot Hsorted).
Qed.

Lemma skipped_returns st k fuel : skipped st k -> assemble_node fuel st k = Done st.
Proof.
  intros (m & Hm & H). unfold assemble_node. rewrite Hm.
  destruct H as [->|(r & Hr & Ha)]; [reflexivity|].
  destruct (isLastNode m); [|reflexivity].
  rewrite Hr. cbv zeta. now rewrite Ha.
Qed.

Lemma step_skipped fuel st k st' : step_of fuel st k st' -> skipped st' k.
Proof.
  intros Hstep. assert (Hext := step_extends _ _ _ _ Hstep).
  destruct Hstep as [-> H|r m l pk p pm Hm Hl Hr Hpk Ht Hp Hpm Hs Hw Hst
         |r m l pk Hm Hl Hr Hpk Ht Hp Hs Hw Hst
         |r m l pk p pm Hm Hl Hr Hpk Ht Hp Hpm Hs Hw Hst]; [exact H|..].
  all: destruct Hext as [_ _ Hn Hlast _ _].
  all: assert (Hl' := Hlast k); rewrite Hm in Hl'.
  all: destruct (JsObject.get k (metaData st')) as [m'|] eqn:Em';
    [|discriminate].
  all: exists m'; split; [first [exact Em' | reflexivity]|]; right.
  all: assert (Hn' := Hn k); rewrite Hr in Hn'.
  all: destruct (JsObject.get k (references st')) as [r'|] eqn:Er';
    [|discriminate].
  all: exists r'; split; [first [exact Er' | reflexivity]|].
  all: inversion Hn' as [Hnode]; rewrite Hnode, <- Hpk.
  all: subst st'; simpl; rewrite ?get_set_same; simpl; try reflexivity.
  - now rewrite Hp.
  - now rewrite Hp.
Qed.

(** ** The third pass: the whole loop *)

Lemma phase3_run fuel l : forall st st',
  forEach (assemble_node fuel) l st = Done st' ->
  extends st st' /\ forall k, In k l -> skipped st' k.
Proof.
  induction l as [|a l IH]; simpl; intros st st' H.
  - inversion H. split; [apply extends_refl | tauto].
  - destruct (assemble_node fuel st a) as [st1| |] eqn:E; simpl in H;
      try discriminate.
    apply assemble_node_step in E.
    destruct (IH _ _ H) as [Hext Hsk].
    split; [eapply extends_trans; eauto using step_extends|].
    intros k [<-|Hin]; [|auto].
    eapply skipped_extends; eauto using step_skipped.
Qed.

Lemma forEach_skipped fuel l st :
  (forall k, In k l -> skipped st k) ->
  forEach (assemble_node fuel) l st = Done st.
Proof.
  induction l as [|a l IH]; simpl; intros H; [reflexivity|].
  rewrite skipped_returns by auto. simpl. auto.
Qed.

(** C5: when the third pass has run to its end, running it once more over
    the index and the metadata it left changes nothing: every group is
    marked as sorted and is skipped, so no [children] sequence and no root
    list is rebuilt, duplicated or reordered. *)
Theorem assembly_idempotent fuel st st1 :
  phase3 fuel st = Done st1 ->
  forall fuel', phase3 fuel' st1 = Done st1.
Proof.
  unfold phase3. intros H fuel'.
  destruct (phase3_run _ _ _ _ H) as [Hext Hsk].
  rewrite (keys_own (references st1) (references st))
    by apply (ext_ref_keys _ _ Hext).
  now apply forEach_skipped.
Qed.

(** Two last nodes, [B] and [C], in the group of [P]. *)
Lemma assembly_idempotent_witness :
  phase3 3 (detected two_last) = Done (assembled_with 3 (detected two_last))
  /\ phase3 0 (assembled_with 3 (detected two_last))
     = Done (assembled_with 3 (detected two_last)).
Proof.
  split; [reflexivity|].
  apply (assembly_idempotent 3 (detected two_last)). reflexivity.
Defined.

(** ** The backward walk *)

Lemma walk_more refs : forall fuel cur acc l,
  walk fuel refs cur acc = Done l ->
  forall fuel', fuel <= fuel' -> walk fuel' refs cur acc = Done l.
Proof.
  induction fuel as [|fuel IH]; intros cur acc l H fuel' Hle.
  - destruct cur; simpl in H; [discriminate|].
    destruct fuel'; exact H.
  - destruct cur as [r|]; [|destruct fuel'; exact H].
    destruct fuel' as [|fuel']; [lia|]. simpl in *.
    apply IH; [exact H | lia].
Qed.


Lemma walk_no_error refs : forall fuel cur acc,
  walk fuel refs cur acc <> TypeError.
Proof.
  induction fuel as [|fuel IH]; intros [r|] acc; simpl; try discriminate.
  apply IH.
Qed.


Lemma linked_named : forall c first d n,
  linked first (c ++ [d]) -> In n c ->
  exists n', In n' (c ++ [d]) /\ previousSiblingId n' = Some (nodeId n).
Proof.
  induction c as [|a c IH]; intros first d n Hl Hin; [contradiction|].
  simpl in Hl. destruct Hl as [_ Hl]. destruct Hin as [->|Hin].
  - destruct c as [|b c]; simpl in Hl.
    + exists d. simpl. tauto.
    + exists b. simpl. tauto.
  - destruct (IH _ _ _ Hl Hin) as (n' & Hin' & Hp).
    exists n'. split; [now right | exact Hp].
Qed.

(** ** States of the third pass *)

Lemma shaped_detection nodes st :
  phase2 nodes (phase1 nodes) = Done st -> shaped nodes st.
Proof.
  destruct (detection_spec nodes) as (st0 & H0 & Hr & _ & _ & Hm).
  intros H. rewrite H0 in H. inversion H. subst st0.
  constructor; intros k.
  - rewrite Hr, phase1_references. now destruct (latest k nodes).
  - rewrite Hm. now destruct (latest k nodes).
Qed.

Lemma shaped_extends nodes st st' :
  shaped nodes st -> extends st st' -> shaped nodes st'.
Proof.
  intros [Hr Hm] Hext. constructor; intros k.
  - now rewrite (ext_node _ _ Hext).
  - now rewrite (ext_last _ _ Hext).
Qed.

Lemma shaped_get nodes st n :
  shaped nodes st -> latest (nodeId n) nodes = Some n ->
  exists r, JsObject.get (nodeId n) (references st) = Some r /\ node r = n.
Proof.
  intros [Hr _] Hl. specialize (Hr (nodeId n)). rewrite Hl in Hr.
  destruct (JsObject.get (nodeId n) (references st)) as [r|];
    [|discriminate].
  exists r. split; [reflexivity|]. simpl in Hr. congruence.
Qed.

Lemma shaped_node nodes st k r :
  shaped nodes st -> JsObject.get k (references st) = Some r ->
  latest k nodes = Some (node r) /\ In (node r) nodes /\ nodeId (node r) = k.
Proof.
  intros [Hr _] Hg. specialize (Hr k). rewrite Hg in Hr. simpl in Hr.
  symmetry in Hr. split; [exact Hr|]. now apply latest_some.
Qed.


Lemma shaped_last nodes st k m :
  shaped nodes st -> JsObject.get k (metaData st) = Some m ->
  isLastNode m = negb (existsb (names k) nodes).
Proof.
  intros [_ Hm] Hg. specialize (Hm k). rewrite Hg in Hm.
  destruct (latest k nodes); simpl in Hm; congruence.
Qed.

Lemma shaped_meta nodes st k :
  shaped nodes st -> latest k nodes <> None ->
  exists m, JsObject.get k (metaData st) = Some m.
Proof.
  intros [_ Hm] Hl. specialize (Hm k).
  destruct (latest k nodes); [|congruence].
  destruct (JsObject.get k (metaData st)) as [m|]; [eauto|discriminate].
Qed.

Lemma shaped_keys nodes st k :
  shaped nodes st ->
  In k (JsObject.keys (references st)) <-> latest k nodes <> None.
Proof.
  intros [Hr _]. rewrite keys_in, <- get_in. specialize (Hr k).
  destruct (JsObject.get k (references st)), (latest k nodes);
    simpl in Hr; split; congruence.
Qed.

Lemma names_existsb k nodes n :
  In n nodes -> property_key (previousSiblingId n) = k ->
  existsb (names k) nodes = true.
Proof.
  intros Hin Hk. apply existsb_exists. exists n. split; [exact Hin|].
  unfold names. now apply String.eqb_eq.
Qed.


(** ** One sibling run *)

Section SiblingRun.
Variables (nodes : list NodeInput) (p : string).
Variables (c : list NodeInput) (d : NodeInput) (first : option string).

(** The run [c ++ [d]] is in the index, *)
Hypothesis run_indexed :
  forall n, In n (c ++ [d]) -> latest (nodeId n) nodes = Some n.
(** its nodes share the parent [p], *)
Hypothesis run_parent : forall n, In n (c ++ [d]) -> parentId n = Some p.
(** each names its left neighbour, *)
Hypothesis run_linked : linked first (c ++ [d]).
(** what the first one names is [null] or unresolved, *)
Hypothesis run_first : latest (property_key first) nodes = None.
(** the parent is an entry of the index that line 99 takes for one, *)
Hypothesis parent_truthy : p <> "".
Hypothesis parent_indexed : latest p nodes <> None.
(** no node names [d], *)
Hypothesis run_last : existsb (names (nodeId d)) nodes = false.
(** and the run is the whole sibling group of [p]. *)
Hypothesis run_group :
  forall n, In n nodes -> property_key (parentId n) = p -> In n (c ++ [d]).




End SiblingRun.

(** ** Small inputs *)

(** C9: an empty input array gives an empty output array: no entry is made
    and [tree] keeps the empty array it starts with. *)
Theorem empty_input fuel :
  exists st,
    buildTree fuel [] = Done st /\ tree st = [] /\ references st = [].
Proof. exists initial. repeat split. Qed.

(** C3, at its failing input: a single node whose [parentId] names no
    entry.  Line 87 treats it as a root node, line 99 does not, and line 100
    writes to a property of [undefined]. *)
Theorem dangling_parent_throws fuel :
  buildTree (S fuel) dangling_parent = TypeError.
Proof. destruct fuel; reflexivity. Qed.

(** A [previousSiblingId] that names no entry ends the walk like [null]. *)
Example dangling_previous_tolerated :
  exists st,
    buildTree 1 [mk "A" None (Some "Z")] = Done st /\ tree st = ["A"].
Proof. eexists. split; reflexivity. Qed.

(** The spec's end-to-end example. *)
Example end_to_end :
  exists st,
    buildTree 2 [mk "1" None None; mk "2" None (Some "1")] = Done st
    /\ tree st = ["1"; "2"]
    /\ forall k r, JsObject.get k (references st) = Some r -> children r = [].
Proof.
  eexists. split; [reflexivity|]. split; [reflexivity|].
  intros k r. simpl.
  destruct (String.eqb k "1"); [intros H; now inversion H|].
  destruct (String.eqb k "2"); [intros H; now inversion H|]. discriminate.
Qed.

Example chain_ABCD_children :
  exists st r,
    buildTree 4 chain_ABCD = Done st
    /\ JsObject.get "P" (references st) = Some r
    /\ children r = ["A"; "B"; "C"; "D"]
    /\ tree st = ["P"].
Proof. do 2 eexists. repeat split. Qed.

(** ** Last nodes *)

Lemma names_true k n :
  names k n = true <-> property_key (previousSiblingId n) = k.
Proof. unfold names. apply String.eqb_eq. Qed.

Lemma unnamed_iff k nodes :
  k <> "null" ->
  existsb (names k) nodes = false
  <-> forall n, In n nodes -> previousSiblingId n <> Some k.
Proof.
  intros Hk. split.
  - intros H n Hin Hn.
    rewrite (names_existsb k nodes n Hin) in H; [discriminate|].
    now rewrite Hn.
  - intros H. destruct (existsb (names k) nodes) eqn:E; [|reflexivity].
    apply existsb_exists in E. destruct E as (n & Hin & Hn).
    apply names_true in Hn. exfalso.
    destruct (previousSiblingId n) as [s|] eqn:Es; simpl in Hn.
    + apply (H n Hin). congruence.
    + congruence.
Qed.

(** C4, as amended: on an input none of whose identifiers is a property
    name of [Object.prototype] the second pass comes to its end, and after
    it every entry of the index other than an entry ["null"] has
    [isLastNode] true iff no node of the input, the node itself included,
    names it as its [previousSiblingId]. *)
Theorem last_node_iff_unnamed nodes :
  prototype_free nodes = true ->
  exists st,
    phase2 nodes (phase1 nodes) = Done st
    /\ forall k, In k (map nodeId nodes) -> k <> "null" ->
         exists m,
           JsObject.get k (metaData st) = Some m
           /\ (isLastNode m = true
               <-> forall n, In n nodes -> previousSiblingId n <> Some k).
Proof.
  intros _. destruct (detection_spec nodes) as (st & H & _ & _ & _ & Hm).
  exists st. split; [exact H|]. intros k Hin Hk. rewrite Hm.
  destruct (latest k nodes) eqn:E; [|now apply latest_none in E].
  simpl. eexists. split; [reflexivity|]. simpl.
  rewrite negb_true_iff. now apply unnamed_iff.
Qed.

(** The entry [D] of the run [A <- B <- C <- D]. *)
Lemma last_node_iff_unnamed_witness :
  prototype_free chain_ABCD = true
  /\ exists st,
    phase2 chain_ABCD (phase1 chain_ABCD) = Done st
    /\ exists m,
         JsObject.get "D" (metaData st) = Some m
         /\ (isLastNode m = true
             <-> forall n, In n chain_ABCD ->
                   previousSiblingId n <> Some "D").
Proof.
  split; [reflexivity|].
  destruct (last_node_iff_unnamed chain_ABCD eq_refl) as (st & H & Hk).
  exists st. split; [exact H|].
  apply Hk; [simpl; auto | discriminate].
Defined.

(** C4, as worded, fails on a node that names itself: no other node names
    it, and the second pass clears its [isLastNode]. *)
Lemma self_named_not_last : ~ last_iff_unnamed_by_others self_named.
Proof.
  intros H.
  specialize (H _ eq_refl "A" _ eq_refl). simpl in H.
  destruct H as [_ H]. discriminate H.
  intros n [<-|[]] Hn. now elim Hn.
Qed.

(** ** Duplicate identifiers *)

Lemma latest_app_last nodes1 nodes3 b :
  ~ In (nodeId b) (map nodeId nodes3) ->
  latest (nodeId b) (nodes1 ++ b :: nodes3) = Some b.
Proof.
  induction nodes3 as [|x nodes3 IH] using rev_ind; intros H.
  - now rewrite latest_snoc, String.eqb_refl.
  - rewrite map_app, in_app_iff in H. simpl in H.
    replace (nodes1 ++ b :: nodes3 ++ [x])
      with ((nodes1 ++ b :: nodes3) ++ [x])
      by (now rewrite <- app_assoc).
    rewrite latest_snoc.
    destruct (String.eqb (nodeId x) (nodeId b)) eqn:E.
    + apply String.eqb_eq in E. tauto.
    + apply IH. tauto.
Qed.

(** C8: of two records with the same [nodeId] the first pass keeps the
    later one.  The entry is overwritten in [references] and in [metaData]
    by the first pass, which raises nothing; the earlier record is in no
    entry of the index, and so in no entry when [buildTree] has come to its
    end. *)
Theorem duplicate_overwritten nodes1 nodes2 nodes3 a b :
  nodeId a = nodeId b ->
  ~ In (nodeId b) (map nodeId nodes3) ->
  let nodes := nodes1 ++ a :: nodes2 ++ b :: nodes3 in
  JsObject.get (nodeId a) (references (phase1 nodes)) = Some (fresh b)
  /\ JsObject.get (nodeId a) (metaData (phase1 nodes)) = Some fresh_meta
  /\ (a <> b ->
      forall k r, JsObject.get k (references (phase1 nodes)) = Some r ->
        node r <> a)
  /\ (a <> b ->
      forall fuel st, buildTree fuel nodes = Done st ->
      forall k r, JsObject.get k (references st) = Some r -> node r <> a).
Proof.
  intros Hid Hlast nodes.
  assert (Hl : latest (nodeId a) nodes = Some b).
  { rewrite Hid. unfold nodes.
    replace (nodes1 ++ a :: nodes2 ++ b :: nodes3)
      with ((nodes1 ++ a :: nodes2) ++ b :: nodes3)
      by (now rewrite <- app_assoc).
    now apply latest_app_last. }
  assert (Hgone : forall st, shaped nodes st -> a <> b ->
            forall k r, JsObject.get k (references st) = Some r ->
              node r <> a).
  { intros st Hsh Hab k r Hr Hn.
    destruct (shaped_node _ _ _ _ Hsh Hr) as (Hk & _ & Hkid).
    rewrite Hn in Hk, Hkid. subst k. congruence. }
  split; [now rewrite phase1_references, Hl|].
  split; [now rewrite phase1_metaData, Hl|].
  destruct (detection_spec nodes) as (st2 & H2 & Hr2 & _).
  split.
  - intros Hab k r. rewrite <- Hr2.
    apply Hgone; [now apply shaped_detection | exact Hab].
  - intros Hab fuel st H. unfold buildTree in H. rewrite H2 in H.
    simpl in H. apply Hgone; [|exact Hab].
    apply (shaped_extends _ st2); [exact (shaped_detection _ _ H2)|].
    apply (phase3_run _ _ _ _ H).
Qed.

(** Two records [A], the later one under the parent [P]. *)
Lemma duplicate_overwritten_witness :
  JsObject.get "A" (references (phase1 duplicated)) = Some (fresh later_A)
  /\ JsObject.get "A" (metaData (phase1 duplicated)) = Some fresh_meta
  /\ (earlier_A <> later_A ->
      forall k r, JsObject.get k (references (phase1 duplicated)) = Some r ->
        node r <> earlier_A)
  /\ (earlier_A <> later_A ->
      forall fuel st, buildTree fuel duplicated = Done st ->
      forall k r, JsObject.get k (references st) = Some r ->
        node r <> earlier_A).
Proof.
  apply (duplicate_overwritten [mk "P" None None] [] [] earlier_A later_A).
  - reflexivity.
  - simpl. tauto.
Defined.

(** ** Cycles *)

Lemma walk_none fuel refs acc : walk fuel refs None acc = Done acc.
Proof. now destruct fuel. Qed.

(** A walk that enters a cycle of two entries, or of one, never leaves it. *)
Lemma walk_cycle refs r1 r2 :
  JsObject.get (property_key (previousSiblingId (node r1))) refs = Some r2 ->
  JsObject.get (property_key (previousSiblingId (node r2))) refs = Some r1 ->
  forall fuel acc,
    walk fuel refs (Some r1) acc = OutOfFuel
    /\ walk fuel refs (Some r2) acc = OutOfFuel.
Proof.
  intros H1 H2. induction fuel as [|fuel IH]; intros acc; [now split|].
  simpl. rewrite H1, H2. split; apply IH.
Qed.

Lemma cyclic_chain_runs fuel : buildTree fuel cyclic_chain = OutOfFuel.
Proof.
  unfold buildTree.
  change (phase2 cyclic_chain (phase1 cyclic_chain))
    with (Done (detected cyclic_chain)).
  cbn [bind]. unfold phase3.
  change (JsObject.keys (references (detected cyclic_chain)))
    with ["A"; "B"; "C"].
  cbn [forEach].
  change (assemble_node fuel (detected cyclic_chain) "A")
    with (Done (A:=State) (detected cyclic_chain)).
  cbn [bind].
  change (assemble_node fuel (detected cyclic_chain) "B")
    with (Done (A:=State) (detected cyclic_chain)).
  cbn [bind].
  destruct fuel as [|fuel]; [reflexivity|].
  unfold assemble_node. simpl.
  match goal with
  | |- context [walk fuel ?refs (Some ?r) ?acc] =>
      rewrite (proj1 (walk_cycle refs r _ eq_refl eq_refl fuel acc))
  end.
  reflexivity.
Qed.

(** C2, as worded, fails on a cycle [A <-> B] with a tail [C]: the walk
    from [C] goes round for ever, with whatever fuel, and no fault is
    reported. *)
Lemma cyclic_chain_hangs : ~ assembly_terminates cyclic_chain.
Proof. intros [fuel H]. apply H, cyclic_chain_runs. Qed.



(** ** Termination without cycles *)

Section Ranked.
Variables (nodes : list NodeInput) (rank : string -> nat).
Hypothesis rank_decreases :
  forall n m, In n nodes -> In m nodes ->
    property_key (previousSiblingId n) = nodeId m ->
    rank (nodeId m) < rank (nodeId n).

Lemma walk_ranked st : shaped nodes st ->
  forall fuel k r acc,
    JsObject.get k (references st) = Some r ->
    rank (nodeId (node r)) < fuel ->
    exists l, walk fuel (references st) (Some r) acc = Done l.
Proof.
  intros Hsh. induction fuel as [|fuel IH]; intros k r acc Hr Hlt; [lia|].
  simpl.
  destruct (JsObject.get (property_key (previousSiblingId (node r)))
              (references st)) as [r'|] eqn:E.
  - destruct (shaped_node _ _ _ _ Hsh Hr) as (_ & Hin & _).
    destruct (shaped_node _ _ _ _ Hsh E) as (_ & Hin' & Hid').
    assert (Hd := rank_decreases _ _ Hin Hin' (eq_sym Hid')).
    apply (IH _ r' _ E). lia.
  - rewrite walk_none. eauto.
Qed.

Lemma assemble_node_ranked fuel st k :
  shaped nodes st ->
  (forall n, In n nodes -> rank (nodeId n) < fuel) ->
  assemble_node fuel st k <> OutOfFuel.
Proof.
  intros Hsh Hfuel. unfold assemble_node.
  destruct (JsObject.get k (metaData st)) as [m|]; [|discriminate].
  destruct (isLastNode m); [|discriminate].
  destruct (JsObject.get k (references st)) as [r|] eqn:Er; [|discriminate].
  cbv zeta.
  destruct (already_sorted _ _ _) as [[|]| |] eqn:Ea; simpl;
    try discriminate.
  2:{ exfalso. unfold already_sorted in Ea.
      repeat (destruct (JsObject.get _ _) in Ea; try discriminate Ea). }
  destruct (shaped_node _ _ _ _ Hsh Er) as (_ & Hin & _).
  destruct (walk_ranked st Hsh fuel k r [] Er (Hfuel _ Hin)) as [l ->].
  simpl. unfold place, mark_sorted.
  destruct (truthy _); simpl;
    repeat (destruct (JsObject.get _ _); simpl); discriminate.
Qed.
End Ranked.

Lemma assemble_node_fuel fuel fuel' st k o :
  assemble_node fuel st k = o -> o <> OutOfFuel -> fuel <= fuel' ->
  assemble_node fuel' st k = o.
Proof.
  unfold assemble_node. intros H Ho Hle.
  destruct (JsObject.get k (metaData st)) as [m|]; [|exact H].
  destruct (isLastNode m); [|exact H].
  destruct (JsObject.get k (references st)) as [r|]; [|exact H].
  cbv zeta in *.
  destruct (already_sorted _ _ _) as [[|]| |]; simpl in *; try exact H.
  destruct (walk fuel (references st) (Some r) []) as [l| |] eqn:Ew;
    simpl in H.
  - now rewrite (walk_more _ _ _ _ _ Ew fuel' Hle).
  - now apply walk_no_error in Ew.
  - congruence.
Qed.

Lemma phase3_fuel nodes fuel fuel' l :
  fuel <= fuel' ->
  (forall st k, shaped nodes st -> assemble_node fuel st k <> OutOfFuel) ->
  forall st, shaped nodes st ->
    forEach (assemble_node fuel) l st <> OutOfFuel
    /\ forEach (assemble_node fuel') l st = forEach (assemble_node fuel) l st.
Proof.
  intros Hle Hno. induction l as [|a l IH]; intros st Hsh; simpl.
  - split; [discriminate | reflexivity].
  - assert (Ha := Hno st a Hsh).
    destruct (assemble_node fuel st a) as [st1| |] eqn:E; [| |congruence].
    + rewrite (assemble_node_fuel _ _ _ _ _ E) by (discriminate || exact Hle).
      simpl. apply IH.
      eapply shaped_extends; eauto using step_extends, assemble_node_step.
    + rewrite (assemble_node_fuel _ _ _ _ _ E) by (discriminate || exact Hle).
      simpl. split; [discriminate | reflexivity].
Qed.

(** C2, as amended: on an input none of whose identifiers is a property
    name of [Object.prototype] and in which the steps of line 94 (a [null]
    [previousSiblingId] reads the entry ["null"]) form no cycle, the third
    pass comes to an end, with the tree or with the [TypeError] of line 100,
    and more fuel changes nothing.  (A cycle is not detected: a walk that
    reaches one never ends.) *)
Theorem acyclic_terminates nodes :
  prototype_free nodes = true ->
  acyclic nodes ->
  exists fuel,
    buildTree fuel nodes <> OutOfFuel
    /\ forall fuel', fuel <= fuel' ->
         buildTree fuel' nodes = buildTree fuel nodes.
Proof.
  intros _ [rank Hrank].
  set (fuel := S (list_max (map (fun n => rank (nodeId n)) nodes))).
  assert (Hfuel : forall n, In n nodes -> rank (nodeId n) < fuel).
  { intros n Hin. unfold fuel. apply Nat.lt_succ_r.
    assert (H := proj1 (list_max_le _ _) (Nat.le_refl
                 (list_max (map (fun n => rank (nodeId n)) nodes)))).
    rewrite Forall_forall in H. apply H.
    apply in_map_iff. eauto. }
  exists fuel. unfold buildTree.
  destruct (detection_spec nodes) as (st & H & _).
  rewrite H. simpl. assert (Hsh := shaped_detection _ _ H).
  split.
  - apply (phase3_fuel nodes fuel fuel _ (Nat.le_refl _)); [|exact Hsh].
    intros st0 k Hsh0. now apply (assemble_node_ranked nodes rank).
  - intros fuel' Hle. apply (phase3_fuel nodes fuel fuel' _ Hle); [|exact Hsh].
    intros st0 k Hsh0. now apply (assemble_node_ranked nodes rank).
Qed.

(** The run [A <- B <- C <- D], ranked by the letter. *)
Lemma acyclic_terminates_witness :
  prototype_free chain_ABCD = true
  /\ acyclic chain_ABCD
  /\ exists fuel,
       buildTree fuel chain_ABCD <> OutOfFuel
       /\ forall fuel', fuel <= fuel' ->
            buildTree fuel' chain_ABCD = buildTree fuel chain_ABCD.
Proof.
  assert (H : acyclic chain_ABCD).
  { exists (fun s => match s with
                     | String c _ => nat_of_ascii c
                     | EmptyString => 0
                     end).
    intros n m [<-|[<-|[<-|[<-|[<-|[]]]]]] [<-|[<-|[<-|[<-|[<-|[]]]]]] He;
      try discriminate He; vm_compute; lia. }
  split; [reflexivity|].
  split; [exact H | exact (acyclic_terminates chain_ABCD eq_refl H)].
Defined.

(** ** A node that names itself *)

Section SelfCycle.
Variables (nodes : list NodeInput) (x : string) (n : NodeInput).
Hypothesis self_indexed : latest x nodes = Some n.
Hypothesis self_named_x : previousSiblingId n = Some x.



End SelfCycle.



(** ** Well-formed inputs: one last node in each sibling group *)

Lemma same_id_true a b : same_id a b = true <-> a = b.
Proof.
  destruct a as [x|], b as [y|]; simpl; split; try congruence; try reflexivity.
  - intros H. apply String.eqb_eq in H. congruence.
  - intros H. inversion H. apply String.eqb_refl.
Qed.

Lemma group_in pid nodes n :
  In n (group pid nodes) <-> In n nodes /\ parentId n = pid.
Proof. unfold group. now rewrite filter_In, same_id_true. Qed.

Lemma NoDup_map_filter {A B : Type} (f : A -> B) (g : A -> bool) l :
  NoDup (map f l) -> NoDup (map f (filter g l)).
Proof.
  induction l as [|a l IH]; simpl; intros H; [constructor|].
  inversion H as [|? ? Hni Hnd]; subst.
  destruct (g a); simpl; [|auto]. constructor; [|auto].
  intros Hin. apply Hni. apply in_map_iff in Hin.
  destruct Hin as (x & Hx & Hin). apply filter_In in Hin.
  apply in_map_iff. exists x. tauto.
Qed.

Lemma filter_none {A : Type} (f : A -> bool) (l : list A) :
  (forall x, In x l -> f x = false) -> filter f l = [].
Proof.
  induction l as [|a l IH]; simpl; intros H; [reflexivity|].
  rewrite (H a (or_introl eq_refl)). apply IH. intros x Hx. apply H.
  now right.
Qed.

Lemma filter_unique {A : Type} (f : A -> bool) (l : list A) d :
  NoDup l -> In d l -> (forall x, In x l -> f x = true <-> x = d) ->
  filter f l = [d].
Proof.
  induction l as [|a l IH]; simpl; intros Hnd Hin Hf; [contradiction|].
  inversion Hnd as [|? ? Hni Hnd']; subst.
  assert (Hrest : forall x, In x l -> x <> d -> f x = false).
  { intros x Hx Hne. destruct (f x) eqn:E; [|reflexivity].
    apply Hf in E; [contradiction | now right]. }
  destruct Hin as [->|Hin].
  - rewrite (proj2 (Hf d (or_introl eq_refl)) eq_refl). f_equal.
    apply filter_none. intros x Hx. apply Hrest; [exact Hx|].
    intros E. apply Hni. now rewrite <- E.
  - destruct (f a) eqn:E.
    + apply Hf in E; [|now left]. subst a. contradiction.
    + apply IH; auto.
Qed.

Lemma linked_previous : forall c first n,
  linked first c -> In n c ->
  previousSiblingId n = first
  \/ exists a, In a c /\ previousSiblingId n = Some (nodeId a).
Proof.
  induction c as [|a c IH]; intros first n Hl Hin; [contradiction|].
  simpl in Hl. destruct Hl as [Ha Hl]. destruct Hin as [->|Hin]; [now left|].
  right. destruct (IH _ _ Hl Hin) as [H|(b & Hb & H)].
  - exists a. split; [now left | exact H].
  - exists b. split; [now right | exact H].
Qed.

Lemma linked_last_unnamed : forall c first d,
  NoDup (map nodeId (c ++ [d])) -> linked first (c ++ [d]) ->
  first <> Some (nodeId d) ->
  forall n, In n (c ++ [d]) -> previousSiblingId n <> Some (nodeId d).
Proof.
  induction c as [|a c IH]; intros first d Hnd Hl Hfirst n Hin.
  - simpl in *. destruct Hin as [<-|[]]. destruct Hl as [Hl _]. congruence.
  - simpl in Hl, Hnd, Hin. destruct Hl as [Ha Hl].
    inversion Hnd as [|? ? Hni Hnd']; subst.
    destruct Hin as [<-|Hin]; [congruence|].
    apply (IH (Some (nodeId a)) d Hnd' Hl); [|exact Hin].
    intros H. inversion H as [Hid]. apply Hni. rewrite Hid.
    apply in_map, in_or_app. simpl. auto.
Qed.

Section WellFormed.
Variable nodes : list NodeInput.
Hypothesis unique_ids : NoDup (map nodeId nodes).
Hypothesis one_chain : chains nodes.
Hypothesis no_null_id : ~ In "null" (map nodeId nodes).

Lemma nodes_NoDup : NoDup nodes.
Proof. exact (NoDup_map_inv _ _ unique_ids). Qed.

Lemma chain_ids c pid :
  Permutation c (group pid nodes) -> NoDup (map nodeId c).
Proof.
  intros Hp. apply (Permutation_NoDup (l := map nodeId (group pid nodes))).
  - now apply Permutation_sym, Permutation_map.
  - now apply NoDup_map_filter.
Qed.

Lemma chain_in c pid n :
  Permutation c (group pid nodes) ->
  In n c <-> In n nodes /\ parentId n = pid.
Proof.
  intros Hp. rewrite <- group_in. split; apply Permutation_in; auto.
  now apply Permutation_sym.
Qed.

(** The last node of a chain is named by no node of the input. *)
Lemma chain_last_unnamed c d pid :
  Permutation (c ++ [d]) (group pid nodes) -> linked None (c ++ [d]) ->
  existsb (names (nodeId d)) nodes = false.
Proof.
  intros Hp Hl.
  assert (Hd : In d nodes /\ parentId d = pid).
  { apply (chain_in _ _ _ Hp), in_or_app. simpl. auto. }
  destruct (existsb (names (nodeId d)) nodes) eqn:E; [|reflexivity].
  exfalso. apply existsb_exists in E. destruct E as (n & Hin & Hn).
  apply names_true in Hn.
  destruct (previousSiblingId n) as [s|] eqn:Es; simpl in Hn.
  2:{ apply no_null_id. rewrite Hn. apply in_map. tauto. }
  subst s. destruct (one_chain n Hin) as (c2 & Hp2 & Hl2).
  assert (Hn2 : In n c2) by (apply (chain_in _ _ _ Hp2); auto).
  destruct (linked_previous _ _ _ Hl2 Hn2) as [H|(a & Ha & H)];
    [congruence|].
  assert (Ha' := proj1 (chain_in _ _ _ Hp2) Ha).
  assert (a = d).
  { apply (NoDup_map_eq nodeId nodes); try tauto. congruence. }
  subst a.
  assert (Hnc : In n (c ++ [d])).
  { apply (chain_in _ _ _ Hp). split; [exact Hin|].
    destruct Ha' as [_ Ha']. destruct Hd as [_ Hd]. congruence. }
  apply (linked_last_unnamed c None d (chain_ids _ _ Hp) Hl) in Hnc;
    [contradiction | discriminate].
Qed.

(** A node of a chain that no node names is its last node. *)
Lemma chain_unnamed_last c d pid n :
  Permutation (c ++ [d]) (group pid nodes) -> linked None (c ++ [d]) ->
  In n (c ++ [d]) -> existsb (names (nodeId n)) nodes = false -> n = d.
Proof.
  intros Hp Hl Hin Hn. apply in_app_or in Hin.
  destruct Hin as [Hc|[Hd|[]]]; [|auto]. exfalso.
  destruct (linked_named _ _ _ _ Hl Hc) as (n' & Hin' & Hn').
  apply (chain_in _ _ _ Hp) in Hin'.
  rewrite (names_existsb (nodeId n) nodes n') in Hn;
    [discriminate | tauto | now rewrite Hn'].
Qed.

(** Under the hypotheses of the section each sibling group has exactly one
    node that the second pass leaves marked as a last node. *)
Lemma one_last_node st n :
  phase2 nodes (phase1 nodes) = Done st -> In n nodes ->
  exists d, last_nodes st (group (parentId n) nodes) = [d].
Proof.
  intros H Hin.
  destruct (detection_spec nodes) as (st0 & H0 & _ & _ & _ & Hm).
  rewrite H0 in H. inversion H. subst st0. clear H.
  destruct (one_chain n Hin) as (c & Hp & Hl).
  assert (Hnc : In n c) by (apply (chain_in _ _ _ Hp); auto).
  destruct (exists_last (l := c)) as (c' & d & ->);
    [intros ->; contradiction|].
  exists d. unfold last_nodes. apply filter_unique.
  - apply NoDup_filter, nodes_NoDup.
  - apply group_in, (chain_in _ _ _ Hp), in_or_app. simpl. auto.
  - intros y Hy. apply group_in in Hy as Hy'.
    rewrite Hm, (latest_unique _ _ unique_ids (proj1 Hy')). simpl.
    rewrite negb_true_iff. split.
    + apply (chain_unnamed_last _ _ _ _ Hp Hl).
      now apply (chain_in _ _ _ Hp).
    + intros ->. apply (chain_last_unnamed _ _ _ Hp Hl).
Qed.
End WellFormed.

(** ** Well-formed inputs: the assembled tree *)

Section Assembly.
Variable nodes : list NodeInput.
Hypothesis wf : well_formed nodes.
Hypothesis res : resolved nodes.
Hypothesis plain : plain_ids nodes.











End Assembly.

(** A small well-formed input. *)
Lemma small_tree_well_formed :
  well_formed small_tree /\ resolved small_tree /\ plain_ids small_tree.
Proof.
  split; [split|split].
  - repeat constructor; simpl; intuition discriminate.
  - intros n [<-|[<-|[<-|[]]]].
    + exists [mk "P" None None]. split; [apply Permutation_refl|].
      simpl. tauto.
    + exists [mk "A" (Some "P") None; mk "B" (Some "P") (Some "A")].
      split; [apply Permutation_refl|]. simpl. tauto.
    + exists [mk "A" (Some "P") None; mk "B" (Some "P") (Some "A")].
      split; [apply Permutation_refl|]. simpl. tauto.
  - intros n p [<-|[<-|[<-|[]]]] H; inversion H; simpl; tauto.
  - intros n [<-|[<-|[<-|[]]]]; split; discriminate.
Defined.



(** C6, at its failing input: one node whose [nodeId] is the string
    ["null"].  The input is well-formed, its only sibling group has one
    node, and the second pass, reading [references[null]], clears that
    node's [isLastNode]: the group is left without a last node. *)
Theorem null_id_no_last_node :
  well_formed null_id
  /\ exists st,
       phase2 null_id (phase1 null_id) = Done st
       /\ group None null_id = [mk "null" None None]
       /\ last_nodes st (group None null_id) = [].
Proof.
  split; [split|].
  - repeat constructor. simpl. tauto.
  - intros n [<-|[]]. exists [mk "null" None None].
    split; [apply Permutation_refl|]. simpl. tauto.
  - eexists. split; [reflexivity|]. split; reflexivity.
Qed.

(** * Further properties *)

(** ** The entries of the index *)

Lemma own_keys_set {V : Type} (o : JsObject.t V) k v :
  JsObject.own_keys (JsObject.set k v o)
  = if existsb (String.eqb k) (JsObject.own_keys o)
    then JsObject.own_keys o
    else JsObject.own_keys o ++ [k].
Proof.
  induction o as [|[k' v'] o IH]; simpl; [reflexivity|].
  destruct (String.eqb k k') eqn:E; simpl.
  - apply String.eqb_eq in E. now subst.
  - rewrite IH. now destruct (existsb (String.eqb k) (JsObject.own_keys o)).
Qed.

Lemma filter_filter {A : Type} (f g : A -> bool) (l : list A) :
  filter f (filter g l) = filter (fun x => f x && g x) l.
Proof.
  induction l as [|a l IH]; simpl; [reflexivity|].
  destruct (g a); simpl; rewrite ?andb_true_r, ?andb_false_r.
  - destruct (f a); now rewrite IH.
  - exact IH.
Qed.

Lemma unseen_snoc ks k x :
  unseen (ks ++ [k]) x = unseen ks x && negb (String.eqb x k).
Proof.
  unfold unseen. rewrite existsb_app. simpl. rewrite orb_false_r.
  now rewrite negb_orb.
Qed.

Lemma unseen_present ks k x :
  existsb (String.eqb k) ks = true ->
  unseen ks x && negb (String.eqb x k) = unseen ks x.
Proof.
  intros H. destruct (String.eqb x k) eqn:E; simpl;
    [|now rewrite andb_true_r].
  apply String.eqb_eq in E. subst x. unfold unseen. now rewrite H.
Qed.

Lemma first_occurrences_keys (key : State -> list string) :
  (forall st n,
      key (index_node st n)
      = if existsb (String.eqb (nodeId n)) (key st)
        then key st else key st ++ [nodeId n]) ->
  forall nodes st,
    key (fold_left index_node nodes st)
    = key st ++ filter (unseen (key st))
                  (first_occurrences (map nodeId nodes)).
Proof.
  intros Hkey. induction nodes as [|n nodes IH]; intros st; simpl.
  - now rewrite app_nil_r.
  - rewrite IH, Hkey.
    assert (Hu : unseen (key st) (nodeId n)
                 = negb (existsb (String.eqb (nodeId n)) (key st)))
      by reflexivity.
    rewrite Hu, filter_filter.
    destruct (existsb (String.eqb (nodeId n)) (key st)) eqn:E; simpl.
    + f_equal. apply filter_ext. intros x. symmetry.
      now apply unseen_present.
    + rewrite <- app_assoc. simpl. do 2 f_equal.
      apply filter_ext. intros x. apply unseen_snoc.
Qed.

Lemma filter_all {A : Type} (f : A -> bool) (l : list A) :
  (forall x, f x = true) -> filter f l = l.
Proof.
  intros H. induction l as [|a l IH]; simpl; [reflexivity|].
  now rewrite H, IH.
Qed.

Lemma phase1_own_keys nodes :
  JsObject.own_keys (references (phase1 nodes))
  = first_occurrences (map nodeId nodes)
  /\ JsObject.own_keys (metaData (phase1 nodes))
     = first_occurrences (map nodeId nodes).
Proof.
  unfold phase1. split.
  - rewrite (first_occurrences_keys
               (fun st => JsObject.own_keys (references st))).
    + simpl. now apply filter_all.
    + intros st n. apply own_keys_set.
  - rewrite (first_occurrences_keys
               (fun st => JsObject.own_keys (metaData st))).
    + simpl. now apply filter_all.
    + intros st n. apply own_keys_set.
Qed.



(** On an input none of whose identifiers is a property name of
    [Object.prototype], the index has one entry for each [nodeId] of the
    input, with the fields of the last record that carries it, empty
    [children] and fresh flags, and no entry under any other key that the
    prototype does not resolve; [Object.keys] lists the same keys for
    [metaData] as for [references]. *)
Theorem index_entries nodes :
  prototype_free nodes = true ->
  JsObject.keys (metaData (phase1 nodes))
  = JsObject.keys (references (phase1 nodes))
  /\ forall k, inherited k = false ->
       JsObject.get k (references (phase1 nodes))
       = option_map fresh (latest k nodes)
       /\ JsObject.get k (metaData (phase1 nodes))
          = option_map (fun _ => fresh_meta) (latest k nodes).
Proof.
  intros _. destruct (phase1_own_keys nodes) as [Hr Hm]. split.
  - unfold JsObject.keys. now rewrite Hr, Hm.
  - intros k _. split; [apply phase1_references | apply phase1_metaData].
Qed.

(** Two records [A] after [P]. *)
Lemma index_entries_witness :
  prototype_free duplicated = true
  /\ JsObject.keys (metaData (phase1 duplicated))
     = JsObject.keys (references (phase1 duplicated))
  /\ forall k, inherited k = false ->
       JsObject.get k (references (phase1 duplicated))
       = option_map fresh (latest k duplicated)
       /\ JsObject.get k (metaData (phase1 duplicated))
          = option_map (fun _ => fresh_meta) (latest k duplicated).
Proof.
  split; [reflexivity | exact (index_entries duplicated eq_refl)].
Defined.

(** ** The order of the third pass *)








(** ** The second pass, for every input *)

(** On an input none of whose identifiers is a property name of
    [Object.prototype], the second pass raises nothing and changes neither
    [references] nor [childrenAreSorted]; it clears [isLastNode] of exactly
    the entries whose key is read by some node's [previousSiblingId], where
    [null] reads the key ["null"]. *)
Theorem detection_total nodes :
  prototype_free nodes = true ->
  exists st,
    phase2 nodes (phase1 nodes) = Done st
    /\ references st = references (phase1 nodes)
    /\ tree st = [] /\ rootTreeIsSorted st = false
    /\ forall k, inherited k = false ->
         (JsObject.get k (metaData st) = None
          <-> ~ In k (map nodeId nodes))
         /\ forall m, JsObject.get k (metaData st) = Some m ->
              childrenAreSorted m = false
              /\ (isLastNode m = false
                  <-> exists n, In n nodes
                                /\ property_key (previousSiblingId n) = k).
Proof.
  intros _.
  destruct (detection_spec nodes) as (st & H & Hr & Ht & Hroot & Hm).
  exists st. repeat (split; [assumption|]). intros k _. rewrite Hm. split.
  - rewrite <- latest_none. now destruct (latest k nodes).
  - intros m. destruct (latest k nodes); simpl; [|discriminate].
    intros E. inversion E. simpl. split; [reflexivity|].
    rewrite negb_false_iff, existsb_exists. split.
    + intros (x & Hin & Hn). apply names_true in Hn. eauto.
    + intros (x & Hin & Hn). exists x. split; [exact Hin|].
      now apply names_true.
Qed.

(** The run [A <- B <- C <- D] under [P]. *)
Lemma detection_total_witness :
  prototype_free chain_ABCD = true
  /\ exists st,
       phase2 chain_ABCD (phase1 chain_ABCD) = Done st
       /\ references st = references (phase1 chain_ABCD)
       /\ tree st = [] /\ rootTreeIsSorted st = false
       /\ forall k, inherited k = false ->
            (JsObject.get k (metaData st) = None
             <-> ~ In k (map nodeId chain_ABCD))
            /\ forall m, JsObject.get k (metaData st) = Some m ->
                 childrenAreSorted m = false
                 /\ (isLastNode m = false
                     <-> exists n, In n chain_ABCD
                                   /\ property_key (previousSiblingId n) = k).
Proof.
  split; [reflexivity | exact (detection_total chain_ABCD eq_refl)].
Defined.

(** ** What the third pass leaves as it is *)

Lemma detection_meta_keys nodes st :
  phase2 nodes (phase1 nodes) = Done st ->
  JsObject.own_keys (metaData st) = JsObject.own_keys (metaData (phase1 nodes)).
Proof.
  generalize (phase1 nodes). unfold phase2.
  induction nodes as [|n l IH]; simpl; intros s H.
  - now inversion H.
  - destruct (mark_previous s n) as [s1| |] eqn:E; simpl in H;
      try discriminate.
    rewrite (IH _ H). unfold mark_previous in E.
    destruct (JsObject.get _ (references s));
      [|now inversion E].
    destruct (JsObject.get _ (metaData s)) eqn:Em; [|discriminate].
    inversion E. simpl. apply own_keys_set_present. congruence.
Qed.

(** On an input none of whose identifiers is a property name of
    [Object.prototype], when [buildTree] comes to its end [Object.keys]
    lists for [references] and for [metaData] what it listed after the
    first pass, each entry has the fields of the latest record of its
    [nodeId], and [isLastNode] is as the second pass left it: the third pass
    writes [children], [childrenAreSorted], [tree] and [rootTreeIsSorted]
    only. *)
Theorem assembly_frame fuel nodes st :
  prototype_free nodes = true ->
  buildTree fuel nodes = Done st ->
  JsObject.keys (references st) = JsObject.keys (references (phase1 nodes))
  /\ JsObject.keys (metaData st) = JsObject.keys (metaData (phase1 nodes))
  /\ forall k, inherited k = false ->
       option_map node (JsObject.get k (references st)) = latest k nodes
       /\ option_map isLastNode (JsObject.get k (metaData st))
          = option_map (fun _ => negb (existsb (names k) nodes))
              (latest k nodes).
Proof.
  unfold buildTree. intros _ H.
  destruct (phase2 nodes (phase1 nodes)) as [st2| |] eqn:H2; simpl in H;
    try discriminate.
  destruct (phase3_run _ _ _ _ H) as [Hext _].
  assert (Hsh := shaped_extends _ _ _ (shaped_detection _ _ H2) Hext).
  assert (Hkm := detection_meta_keys _ _ H2).
  destruct (detection_spec nodes) as (st0 & H0 & Hr & _).
  rewrite H0 in H2. inversion H2. subst st0.
  split; [|split].
  - unfold JsObject.keys. now rewrite (ext_ref_keys _ _ Hext), Hr.
  - unfold JsObject.keys. now rewrite (ext_meta_keys _ _ Hext), Hkm.
  - intros k _. split; [apply Hsh | apply Hsh].
Qed.

(** The run [A <- B <- C <- D] under [P]. *)
Lemma assembly_frame_witness :
  prototype_free chain_ABCD = true
  /\ buildTree 4 chain_ABCD = Done (assembled_with 4 (detected chain_ABCD))
  /\ JsObject.keys (references (assembled_with 4 (detected chain_ABCD)))
     = JsObject.keys (references (phase1 chain_ABCD))
  /\ JsObject.keys (metaData (assembled_with 4 (detected chain_ABCD)))
     = JsObject.keys (metaData (phase1 chain_ABCD))
  /\ forall k, inherited k = false ->
       option_map node
         (JsObject.get k
            (references (assembled_with 4 (detected chain_ABCD))))
       = latest k chain_ABCD
       /\ option_map isLastNode
            (JsObject.get k
               (metaData (assembled_with 4 (detected chain_ABCD))))
          = option_map (fun _ => negb (existsb (names k) chain_ABCD))
              (latest k chain_ABCD).
Proof.
  split; [reflexivity|]. split; [reflexivity|].
  apply (assembly_frame 4 chain_ABCD); reflexivity.
Defined.

Lemma frozen_refl st : frozen st st.
Proof. intros k m r Hm Hs Hr. eauto. Qed.

Lemma step_frozen fuel st k st' : step_of fuel st k st' -> frozen st st'.
Proof.
  intros [-> _|r m l pk q qm Hm Hl Hr Hpk Ht Hq Hqm Hs Hw ->
         |r m l pk Hm Hl Hr Hpk Ht Hq Hs Hw ->
         |r m l pk q qm Hm Hl Hr Hpk Ht Hq Hqm Hs Hw ->].
  - apply frozen_refl.
  - intros k0 m0 r0 Hm0 Hs0 Hr0. simpl. rewrite get_set.
    destruct (String.eqb k0 pk) eqn:E; [|eauto].
    apply String.eqb_eq in E. subst k0. congruence.
  - intros k0 m0 r0 Hm0 Hs0 Hr0. simpl. eauto.
  - intros k0 m0 r0 Hm0 Hs0 Hr0. simpl. eauto.
Qed.

Lemma frozen_trans st1 st2 st3 :
  extends st1 st2 -> frozen st1 st2 -> frozen st2 st3 -> frozen st1 st3.
Proof.
  intros Hext Hc1 Hc2 k m r Hm Hs Hr.
  destruct (Hc1 k m r Hm Hs Hr) as (r2 & Hr2 & Hch).
  destruct (ext_sorted _ _ Hext k m Hm Hs) as (m2 & Hm2 & Hs2).
  destruct (Hc2 k m2 r2 Hm2 Hs2 Hr2) as (r3 & Hr3 & Hch3).
  exists r3. split; [exact Hr3 | congruence].
Qed.

Lemma forEach_frozen fuel l : forall st st',
  forEach (assemble_node fuel) l st = Done st' -> frozen st st'.
Proof.
  induction l as [|a l IH]; simpl; intros st st' H.
  - inversion H. apply frozen_refl.
  - destruct (assemble_node fuel st a) as [st1| |] eqn:E; simpl in H;
      try discriminate.
    apply assemble_node_step in E.
    eapply frozen_trans; eauto using step_extends, step_frozen.
Qed.







(** With an entry under the empty key the root array is assigned twice:
    first the root node, then the child whose [parentId] is the empty
    string, which line 99 takes for a root node. *)
Example empty_parent_overwrites :
  exists st,
    buildTree 1 empty_parent = Done st /\ tree st = ["A"].
Proof. eexists. split; reflexivity. Qed.

(** ** The arrays that the walks build *)

Lemma shaped_keyed nodes st : shaped nodes st -> keyed (references st).
Proof. intros Hsh k r Hr. apply (shaped_node _ _ _ _ Hsh Hr). Qed.

Lemma walk_acc refs : forall fuel cur acc l,
  walk fuel refs cur acc = Done l ->
  exists path,
    l = path ++ acc
    /\ forall acc', walk fuel refs cur acc' = Done (path ++ acc').
Proof.
  induction fuel as [|fuel IH]; intros [r|] acc l H; simpl in H;
    try discriminate.
  - inversion H. exists []. split; [reflexivity|]. intros acc'. reflexivity.
  - destruct (IH _ _ _ H) as (path & -> & Hp).
    exists (path ++ [nodeId (node r)]). rewrite <- app_assoc.
    split; [reflexivity|]. intros acc'. simpl. rewrite Hp.
    now rewrite <- app_assoc.
  - inversion H. exists []. split; [reflexivity|]. intros acc'. reflexivity.
Qed.

Lemma walk_backward refs : keyed refs ->
  forall fuel k l,
    walk fuel refs (JsObject.get k refs) [] = Done l ->
    JsObject.get k refs <> None ->
    backward refs k l.
Proof.
  intros Hk. induction fuel as [|fuel IH]; intros k l H Hne;
    destruct (JsObject.get k refs) as [r|] eqn:Er; try congruence;
    simpl in H; [discriminate|].
  rewrite (Hk _ _ Er) in H.
  destruct (walk_acc _ _ _ _ _ H) as (path & -> & Hp).
  specialize (Hp []). rewrite app_nil_r in Hp.
  destruct (JsObject.get (property_key (previousSiblingId (node r))) refs)
    as [r'|] eqn:Er'.
  - eapply backward_next; [exact Er|]. apply (IH _ _); [|congruence].
    now rewrite Er'.
  - rewrite walk_none in Hp. inversion Hp. subst path.
    eapply backward_first; eauto.
Qed.

Lemma backward_walk refs : keyed refs ->
  forall k l, backward refs k l ->
  forall fuel acc, List.length l <= fuel ->
    walk fuel refs (JsObject.get k refs) acc = Done (l ++ acc).
Proof.
  intros Hk k l Hb.
  induction Hb as [k r Hr Hn|k r l Hr Hb IH]; intros fuel acc Hf.
  - rewrite Hr. destruct fuel as [|fuel]; [simpl in Hf; lia|].
    simpl. rewrite Hn, walk_none, (Hk _ _ Hr). reflexivity.
  - rewrite Hr. rewrite length_app in Hf. simpl in Hf.
    destruct fuel as [|fuel]; [lia|]. simpl.
    rewrite IH by lia. rewrite (Hk _ _ Hr), <- app_assoc. reflexivity.
Qed.

Lemma backward_in refs k l x :
  backward refs k l -> In x l -> JsObject.get x refs <> None.
Proof.
  intros Hb. induction Hb as [k r Hr Hn|k r l Hr Hb IH]; intros Hin.
  - destruct Hin as [<-|[]]. congruence.
  - apply in_app_or in Hin. destruct Hin as [Hin|[<-|[]]]; [auto|congruence].
Qed.

Lemma backward_last refs k l :
  backward refs k l -> exists l', l = l' ++ [k].
Proof. intros [? r Hr Hn|? r l' Hr Hb]; [now exists [] | now exists l']. Qed.

Lemma backward_unique refs k l :
  backward refs k l -> forall l', backward refs k l' -> l = l'.
Proof.
  intros Hb. induction Hb as [k r Hr Hn|k r l Hr Hb IH]; intros l' Hb'.
  - inversion Hb' as [? r' Hr' Hn'|? r' l0 Hr' Hb0]; subst; [reflexivity|].
    assert (r' = r) by congruence. subst r'.
    destruct (backward_last _ _ _ Hb0) as [l1 ->].
    exfalso.
    apply (backward_in _ _ _
             (property_key (previousSiblingId (node r))) Hb0); [|exact Hn].
    apply in_or_app. simpl. auto.
  - inversion Hb' as [? r' Hr' Hn'|? r' l0 Hr' Hb0]; subst.
    + assert (r' = r) by congruence. subst r'.
      destruct (backward_last _ _ _ Hb) as [l1 ->].
      exfalso.
      apply (backward_in _ _ _
               (property_key (previousSiblingId (node r))) Hb);
        [|exact Hn'].
      apply in_or_app. simpl. auto.
    + assert (r' = r) by congruence. subst r'. f_equal. now apply IH.
Qed.

Lemma backward_from refs k l x :
  backward refs k l -> In x l ->
  exists l1 l2, l = l1 ++ l2 /\ backward refs x l1.
Proof.
  intros Hb. induction Hb as [k r Hr Hn|k r l Hr Hb IH]; intros Hin.
  - destruct Hin as [<-|[]]. exists [k], []. split; [reflexivity|].
    eapply backward_first; eauto.
  - apply in_app_or in Hin. destruct Hin as [Hin|[<-|[]]].
    + destruct (IH Hin) as (l1 & l2 & -> & H1).
      exists l1, (l2 ++ [k]). now rewrite app_assoc.
    + exists (l ++ [k]), []. rewrite app_nil_r. split; [reflexivity|].
      eapply backward_next; eauto.
Qed.

Lemma backward_NoDup refs k l : backward refs k l -> NoDup l.
Proof.
  intros Hb. induction Hb as [k r Hr Hn|k r l Hr Hb IH].
  - repeat constructor. simpl. tauto.
  - apply (Permutation_NoDup (Permutation_cons_append l k)).
    constructor; [|exact IH]. intros Hin.
    destruct (backward_from _ _ _ _ Hb Hin) as (l1 & l2 & -> & H1).
    assert (H2 : backward refs k ((l1 ++ l2) ++ [k]))
      by (eapply backward_next; eauto).
    assert (E := backward_unique _ _ _ H1 _ H2).
    apply (f_equal (@List.length string)) in E.
    rewrite !length_app in E. simpl in E. lia.
Qed.

Lemma backward_extends refs refs' :
  (forall k, option_map node (JsObject.get k refs')
             = option_map node (JsObject.get k refs)) ->
  forall k l, backward refs k l -> backward refs' k l.
Proof.
  intros Hn k l Hb.
  assert (Hsome : forall x r, JsObject.get x refs = Some r ->
            exists r', JsObject.get x refs' = Some r' /\ node r' = node r).
  { intros x r Hr. specialize (Hn x). rewrite Hr in Hn.
    destruct (JsObject.get x refs') as [r'|]; [|discriminate].
    exists r'. split; [reflexivity|]. simpl in Hn. congruence. }
  induction Hb as [k r Hr Hnone|k r l Hr Hb IH];
    destruct (Hsome _ _ Hr) as (r' & Hr' & Hnode).
  - eapply backward_first; [exact Hr'|]. rewrite Hnode.
    specialize (Hn (property_key (previousSiblingId (node r)))).
    rewrite Hnone in Hn. now destruct (JsObject.get _ refs').
  - eapply backward_next; [exact Hr'|]. now rewrite Hnode.
Qed.

Lemma extends_get st st' d rd :
  extends st st' -> JsObject.get d (references st) = Some rd ->
  exists rd', JsObject.get d (references st') = Some rd'
              /\ node rd' = node rd.
Proof.
  intros Hext Hd. assert (H := ext_node _ _ Hext d). rewrite Hd in H.
  destruct (JsObject.get d (references st')) as [rd'|]; [|discriminate].
  exists rd'. split; [reflexivity|]. simpl in H. congruence.
Qed.

Lemma last_key_extends st st' d :
  extends st st' -> last_key st d -> last_key st' d.
Proof.
  intros Hext (m & Hm & Hl). assert (H := ext_last _ _ Hext d).
  rewrite Hm in H.
  destruct (JsObject.get d (metaData st')) as [m'|] eqn:E; [|discriminate].
  exists m'. split; [exact E|]. simpl in H. congruence.
Qed.

Lemma array_transfer st st' (Q : NodeInput -> Prop) l :
  extends st st' ->
  (exists d rd,
      backward (references st) d l /\ last_key st d
      /\ JsObject.get d (references st) = Some rd /\ Q (node rd)) ->
  exists d rd,
    backward (references st') d l /\ last_key st' d
    /\ JsObject.get d (references st') = Some rd /\ Q (node rd).
Proof.
  intros Hext (d & rd & Hb & Hl & Hd & HQ).
  destruct (extends_get _ _ _ _ Hext Hd) as (rd' & Hd' & Hn).
  exists d, rd'. split; [|split; [|split]].
  - apply (backward_extends (references st)); [|exact Hb].
    apply (ext_node _ _ Hext).
  - now apply (last_key_extends st).
  - exact Hd'.
  - now rewrite Hn.
Qed.

Lemma truthy_key id :
  truthy id = true -> id = Some (property_key id) /\ property_key id <> "".
Proof.
  destruct id as [s|]; simpl; [|discriminate].
  rewrite negb_true_iff, String.eqb_neq. auto.
Qed.

Lemma arrays_step nodes fuel st k st' :
  shaped nodes st -> root_array_ok st /\ children_ok st ->
  step_of fuel st k st' -> root_array_ok st' /\ children_ok st'.
Proof.
  intros Hsh [Hroot Hch] Hstep.
  assert (Hext := step_extends _ _ _ _ Hstep).
  assert (Hroot' : tree st' = tree st -> root_array_ok st').
  { intros E. unfold root_array_ok. rewrite E.
    destruct Hroot as [Hroot|Hroot]; [now left | right].
    now apply (array_transfer st st'
                 (fun n => truthy (parentId n) = false)). }
  assert (Hch' : forall p rp rp0,
            JsObject.get p (references st') = Some rp ->
            JsObject.get p (references st) = Some rp0 ->
            children rp = children rp0 ->
            children rp = []
            \/ exists d rd,
                 backward (references st') d (children rp)
                 /\ last_key st' d
                 /\ JsObject.get d (references st') = Some rd
                 /\ parentId (node rd) = Some p /\ p <> "").
  { intros p rp rp0 _ Hp0 E. rewrite E.
    destruct (Hch p rp0 Hp0) as [H|H]; [now left | right].
    now apply (array_transfer st st'
                 (fun n => parentId n = Some p /\ p <> "")). }
  assert (Hwalk : forall r m l (Q : NodeInput -> Prop),
            JsObject.get k (metaData st) = Some m -> isLastNode m = true ->
            JsObject.get k (references st) = Some r ->
            walk fuel (references st) (Some r) [] = Done l ->
            Q (node r) ->
            exists d rd,
              backward (references st') d l /\ last_key st' d
              /\ JsObject.get d (references st') = Some rd /\ Q (node rd)).
  { intros r m l Q Hm Hl Hr Hw HQ.
    apply (array_transfer st st' Q); [exact Hext|].
    exists k, r. split; [|split; [exists m; auto | auto]].
    rewrite <- Hr in Hw.
    apply (walk_backward _ (shaped_keyed _ _ Hsh) _ _ _ Hw). congruence. }
  destruct Hstep as [-> _|r m l pk q qm Hm Hl Hr Hpk Ht Hq Hqm Hs Hw E
       |r m l pk Hm Hl Hr Hpk Ht Hq Hs Hw E
       |r m l pk q qm Hm Hl Hr Hpk Ht Hq Hqm Hs Hw E].
  - split; assumption.
  - split; [apply Hroot'; now subst st'|].
    intros p rp Hp. destruct (String.eqb p pk) eqn:Ep.
    + apply String.eqb_eq in Ep. subst p. right.
      assert (children rp = l).
      { subst st'. simpl in Hp. rewrite get_set_same in Hp.
        now inversion Hp. }
      subst l. destruct (truthy_key _ Ht) as [Hid Hne].
      rewrite <- Hpk in Hid, Hne.
      apply (Hwalk r m _ (fun n => parentId n = Some pk /\ pk <> "")
               Hm Hl Hr Hw). auto.
    + apply String.eqb_neq in Ep.
      assert (Hp0 : JsObject.get p (references st) = Some rp).
      { subst st'. simpl in Hp. rewrite get_set_other in Hp; auto. }
      now apply (Hch' p rp rp Hp Hp0).
  - split.
    + right. subst st'. simpl tree.
      apply (Hwalk r m l (fun n => truthy (parentId n) = false)
               Hm Hl Hr Hw Ht).
    + intros p rp Hp. apply (Hch' p rp rp Hp); [|reflexivity].
      subst st'. exact Hp.
  - split.
    + right. subst st'. simpl tree.
      apply (Hwalk r m l (fun n => truthy (parentId n) = false)
               Hm Hl Hr Hw Ht).
    + intros p rp Hp. apply (Hch' p rp rp Hp); [|reflexivity].
      subst st'. exact Hp.
Qed.

Lemma arrays_run fuel nodes st :
  buildTree fuel nodes = Done st ->
  shaped nodes st /\ root_array_ok st /\ children_ok st.
Proof.
  unfold buildTree. intros H.
  destruct (detection_spec nodes) as (st2 & H2 & Hr & Ht & _).
  rewrite H2 in H. simpl in H. revert H. unfold phase3.
  apply (forEach_invariant
           (fun s => shaped nodes s /\ root_array_ok s /\ children_ok s)).
  - intros st0 a st0' _ (Hsh & Ha) Hstep.
    apply assemble_node_step in Hstep. split.
    + eapply shaped_extends; eauto using step_extends.
    + eapply arrays_step; eauto.
  - split; [now apply shaped_detection|]. split.
    + now left.
    + intros p rp. rewrite Hr, phase1_references.
      destruct (latest p nodes); simpl; [|discriminate].
      intros E. inversion E. now left.
Qed.

(** On an input none of whose identifiers is a property name of
    [Object.prototype], when [buildTree] comes to its end, the root array
    is empty or it is the walk from a last node whose [parentId] is [null] or empty: that node
    comes last, each element is the entry named by its right neighbour, and
    what the first element names is no entry.  The [children] of an entry
    are empty or such a walk from a last node whose [parentId] is the key of
    the entry. *)
Theorem arrays_are_walks fuel nodes st :
  prototype_free nodes = true ->
  buildTree fuel nodes = Done st -> root_array_ok st /\ children_ok st.
Proof. intros _ H. apply (arrays_run _ _ _ H). Qed.

(** The run [A <- B <- C <- D] under [P]. *)
Lemma arrays_are_walks_witness :
  prototype_free chain_ABCD = true
  /\ buildTree 4 chain_ABCD = Done (assembled_with 4 (detected chain_ABCD))
  /\ root_array_ok (assembled_with 4 (detected chain_ABCD))
  /\ children_ok (assembled_with 4 (detected chain_ABCD)).
Proof.
  split; [reflexivity|]. split; [reflexivity|].
  apply (arrays_are_walks 4 chain_ABCD); reflexivity.
Defined.

Lemma backward_array nodes st d l :
  shaped nodes st -> backward (references st) d l ->
  NoDup l
  /\ (forall x, In x l -> In x (map nodeId nodes))
  /\ List.length l <= List.length nodes.
Proof.
  intros Hsh Hb. assert (Hnd := backward_NoDup _ _ _ Hb).
  assert (Hin : forall x, In x l -> In x (map nodeId nodes)).
  { intros x Hx. apply (backward_in _ _ _ _ Hb) in Hx.
    destruct (JsObject.get x (references st)) as [r|] eqn:Er;
      [|congruence].
    destruct (shaped_node _ _ _ _ Hsh Er) as (_ & Hr & Hid).
    rewrite <- Hid. now apply in_map. }
  split; [exact Hnd|]. split; [exact Hin|].
  rewrite <- (length_map nodeId nodes). now apply NoDup_incl_length.
Qed.

(** On an input none of whose identifiers is a property name of
    [Object.prototype], when [buildTree] comes to its end, no array lists a
    node twice, every element of an array is the [nodeId] of a node of the
    input, and no array is longer than the input. *)
Theorem arrays_no_repeat fuel nodes st l :
  prototype_free nodes = true ->
  buildTree fuel nodes = Done st ->
  l = tree st
  \/ (exists p rp, JsObject.get p (references st) = Some rp
                   /\ l = children rp) ->
  NoDup l
  /\ (forall x, In x l -> In x (map nodeId nodes))
  /\ List.length l <= List.length nodes.
Proof.
  intros _ H Hl. destruct (arrays_run _ _ _ H) as (Hsh & Hroot & Hch).
  assert (Hnil : NoDup (@nil string)
                 /\ (forall x, In x [] -> In x (map nodeId nodes))
                 /\ List.length (@nil string) <= List.length nodes).
  { split; [constructor|]. split; [intros x []|]. simpl. lia. }
  destruct Hl as [->|(p & rp & Hp & ->)].
  - destruct Hroot as [->|(d & rd & Hb & _)]; [exact Hnil|].
    now apply (backward_array nodes st d).
  - destruct (Hch p rp Hp) as [->|(d & rd & Hb & _)]; [exact Hnil|].
    now apply (backward_array nodes st d).
Qed.

(** The [children] of [P] in the run [A <- B <- C <- D]. *)
Lemma arrays_no_repeat_witness :
  prototype_free chain_ABCD = true
  /\ buildTree 4 chain_ABCD = Done (assembled_with 4 (detected chain_ABCD))
  /\ NoDup ["A"; "B"; "C"; "D"]
  /\ (forall x, In x ["A"; "B"; "C"; "D"] -> In x (map nodeId chain_ABCD))
  /\ List.length ["A"; "B"; "C"; "D"] <= List.length chain_ABCD.
Proof.
  split; [reflexivity|]. split; [reflexivity|].
  apply (arrays_no_repeat 4 chain_ABCD
           (assembled_with 4 (detected chain_ABCD)));
    [reflexivity|reflexivity|].
  right.
  exists "P", {| node := mk "P" None None;
                 children := ["A"; "B"; "C"; "D"] |}.
  split; reflexivity.
Defined.

(** ** A bound on the walks *)

(** A walk ends within as many steps as the input has nodes, or never. *)
Lemma walk_bounded nodes st k fuel :
  shaped nodes st -> List.length nodes <= fuel ->
  walk fuel (references st) (JsObject.get k (references st)) []
  = walk (List.length nodes) (references st)
      (JsObject.get k (references st)) [].
Proof.
  intros Hsh Hfuel.
  destruct (JsObject.get k (references st)) as [r|] eqn:Er;
    [|now rewrite !walk_none].
  rewrite <- Er.
  destruct (walk (List.length nodes) (references st)
              (JsObject.get k (references st)) []) as [l| |] eqn:E.
  - now apply (walk_more _ _ _ _ _ E).
  - now apply walk_no_error in E.
  - destruct (walk fuel (references st)
                (JsObject.get k (references st)) []) as [l| |] eqn:E';
      [| now apply walk_no_error in E' | reflexivity].
    assert (Hb : backward (references st) k l).
    { apply (walk_backward _ (shaped_keyed _ _ Hsh) _ _ _ E'). congruence. }
    destruct (backward_array nodes st k l Hsh Hb) as (_ & _ & Hlen).
    rewrite (backward_walk _ (shaped_keyed _ _ Hsh) _ _ Hb _ [] Hlen) in E.
    discriminate.
Qed.

Lemma assemble_node_bounded nodes st k fuel :
  shaped nodes st -> List.length nodes <= fuel ->
  assemble_node fuel st k = assemble_node (List.length nodes) st k.
Proof.
  intros Hsh Hfuel. unfold assemble_node.
  destruct (JsObject.get k (metaData st)) as [m|]; [|reflexivity].
  destruct (isLastNode m); [|reflexivity].
  destruct (JsObject.get k (references st)) as [r|] eqn:Er; [|reflexivity].
  cbv zeta. rewrite <- Er.
  now rewrite (walk_bounded nodes st k fuel Hsh Hfuel).
Qed.

Lemma forEach_bounded nodes fuel l :
  List.length nodes <= fuel ->
  forall st, shaped nodes st ->
    forEach (assemble_node fuel) l st
    = forEach (assemble_node (List.length nodes)) l st.
Proof.
  intros Hfuel. induction l as [|a l IH]; intros st Hsh; simpl;
    [reflexivity|].
  rewrite (assemble_node_bounded nodes st a fuel Hsh Hfuel).
  destruct (assemble_node (List.length nodes) st a) as [st1| |] eqn:E;
    simpl; [|reflexivity|reflexivity].
  apply IH. eapply shaped_extends; eauto using step_extends,
    assemble_node_step.
Qed.

Lemma walks_bounded_run nodes fuel :
  List.length nodes <= fuel ->
  buildTree fuel nodes = buildTree (List.length nodes) nodes.
Proof.
  intros Hfuel. unfold buildTree.
  destruct (phase2 nodes (phase1 nodes)) as [st| |] eqn:H; simpl;
    try reflexivity.
  apply (forEach_bounded nodes fuel _ Hfuel), (shaped_detection _ _ H).
Qed.

(** On an input none of whose identifiers is a property name of
    [Object.prototype], a walk visits no entry twice, so it ends within as
    many steps as the input has nodes or it never ends: with walks cut off
    after that many steps, [buildTree] gives the result, the fault or the
    endless loop that it gives with any longer walks. *)
Theorem walks_bounded nodes fuel :
  prototype_free nodes = true ->
  List.length nodes <= fuel ->
  buildTree fuel nodes = buildTree (List.length nodes) nodes.
Proof. intros _. apply walks_bounded_run. Qed.

(** The cycle [A <-> B] with its tail [C], with 3 and with 7 steps. *)
Lemma walks_bounded_witness :
  prototype_free cyclic_chain = true
  /\ List.length cyclic_chain <= 7
  /\ buildTree 7 cyclic_chain = buildTree (List.length cyclic_chain) cyclic_chain.
Proof.
  assert (H : List.length cyclic_chain <= 7) by (simpl; lia).
  split; [reflexivity|].
  split; [exact H | exact (walks_bounded cyclic_chain 7 eq_refl H)].
Defined.

(** ** Faults *)

Lemma assemble_node_no_fault nodes fuel st k :
  parents_resolve nodes -> shaped nodes st -> latest k nodes <> None ->
  assemble_node fuel st k <> TypeError.
Proof.
  intros Hres Hsh Hk. unfold assemble_node.
  destruct (shaped_meta _ _ k Hsh Hk) as [m ->].
  destruct (isLastNode m); [|discriminate].
  destruct (JsObject.get k (references st)) as [r|] eqn:Er.
  2:{ exfalso. assert (H := shaped_references _ _ Hsh k).
      rewrite Er in H. simpl in H. congruence. }
  cbv zeta. set (pk := property_key (parentId (node r))).
  assert (Hmeta : forall p, JsObject.get pk (references st) = Some p ->
            exists pm, JsObject.get pk (metaData st) = Some pm).
  { intros p Hp. apply (shaped_meta _ _ pk Hsh).
    destruct (shaped_node _ _ _ _ Hsh Hp) as (Hl & _). congruence. }
  destruct (JsObject.get pk (references st)) as [p|] eqn:Ep; simpl.
  - destruct (Hmeta p eq_refl) as [pm Hpm]. rewrite Hpm. simpl.
    destruct (childrenAreSorted pm); [discriminate|].
    destruct (walk fuel (references st) (Some r) []) as [l| |] eqn:Ew;
      simpl; [|now apply walk_no_error in Ew|discriminate].
    unfold place. fold pk. rewrite Ep.
    destruct (truthy (parentId (node r))); discriminate.
  - destruct (rootTreeIsSorted st); [discriminate|].
    destruct (walk fuel (references st) (Some r) []) as [l| |] eqn:Ew;
      simpl; [|now apply walk_no_error in Ew|discriminate].
    unfold place. fold pk. rewrite Ep.
    destruct (truthy (parentId (node r))) eqn:Et; [|discriminate].
    exfalso. destruct (truthy_key _ Et) as [Hid Hne].
    destruct (shaped_node _ _ _ _ Hsh Er) as (_ & Hin & _).
    assert (H := Hres _ _ Hin Hid Hne). fold pk in H.
    apply (proj1 (latest_none pk nodes)); [|exact H].
    assert (H' := shaped_references _ _ Hsh pk). rewrite Ep in H'.
    simpl in H'. now symmetry.
Qed.

Lemma forEach_no_fault nodes fuel l :
  parents_resolve nodes ->
  (forall k, In k l -> latest k nodes <> None) ->
  forall st, shaped nodes st ->
    forEach (assemble_node fuel) l st <> TypeError.
Proof.
  intros Hres. induction l as [|a l IH]; intros Hl st Hsh; simpl;
    [discriminate|].
  assert (Ha := assemble_node_no_fault nodes fuel st a Hres Hsh
                  (Hl a (or_introl eq_refl))).
  destruct (assemble_node fuel st a) as [st1| |] eqn:E; simpl;
    [|congruence|discriminate].
  apply IH; [intros k Hk; apply Hl; now right|].
  eapply shaped_extends; eauto using step_extends, assemble_node_step.
Qed.

(** On an input none of whose identifiers is a property name of
    [Object.prototype], the three passes throw for one reason only, a
    [parentId] that is neither [null] nor empty and names no node: when
    there is none, no run of the passes ends with a [TypeError].  (Line 111
    is not covered: it can still reject a result that contains itself.) *)
Theorem no_fault_when_parents_resolve nodes fuel :
  prototype_free nodes = true ->
  parents_resolve nodes -> buildTree fuel nodes <> TypeError.
Proof.
  intros _ Hres. unfold buildTree.
  destruct (detection_spec nodes) as (st & H & _). rewrite H. simpl.
  assert (Hsh := shaped_detection _ _ H).
  apply (forEach_no_fault nodes); [exact Hres| |exact Hsh].
  intros k. apply (shaped_keys nodes st k Hsh).
Qed.

(** The cycle [A <-> B] with its tail [C]: no parent, and no fault. *)
Lemma no_fault_when_parents_resolve_witness :
  prototype_free cyclic_chain = true
  /\ parents_resolve cyclic_chain /\ buildTree 3 cyclic_chain <> TypeError.
Proof.
  assert (H : parents_resolve cyclic_chain).
  { intros n p [<-|[<-|[<-|[]]]] Hp; discriminate Hp. }
  split; [reflexivity|].
  split; [exact H
         | exact (no_fault_when_parents_resolve cyclic_chain 3 eq_refl H)].
Defined.

Lemma passes_complete nodes fuel :
  acyclic nodes -> parents_resolve nodes -> List.length nodes <= fuel ->
  exists st, buildTree fuel nodes = Done st.
Proof.
  intros [rank Hrank] Hres Hfuel.
  set (big := Nat.max fuel
                (S (list_max (map (fun n => rank (nodeId n)) nodes)))).
  assert (Hbig : forall n, In n nodes -> rank (nodeId n) < big).
  { intros n Hin. apply Nat.lt_le_trans
      with (S (list_max (map (fun n => rank (nodeId n)) nodes)));
      [|apply Nat.le_max_r].
    apply Nat.lt_succ_r.
    assert (H := proj1 (list_max_le _ _) (Nat.le_refl
                 (list_max (map (fun n => rank (nodeId n)) nodes)))).
    rewrite Forall_forall in H. apply H. apply in_map_iff. eauto. }
  unfold buildTree. destruct (detection_spec nodes) as (st2 & H2 & _).
  rewrite H2. simpl. assert (Hsh := shaped_detection _ _ H2).
  unfold phase3.
  rewrite (forEach_bounded nodes fuel _ Hfuel st2 Hsh).
  rewrite <- (forEach_bounded nodes big _
                (Nat.le_trans _ _ _ Hfuel (Nat.le_max_l _ _)) st2 Hsh).
  assert (Hf : forEach (assemble_node big) (JsObject.keys (references st2))
                 st2 <> TypeError).
  { apply (forEach_no_fault nodes); [exact Hres| |exact Hsh].
    intros k. apply (shaped_keys nodes st2 k Hsh). }
  destruct (phase3_fuel nodes big big (JsObject.keys (references st2))
              (Nat.le_refl _)
              (fun st0 k Hsh0 =>
                 assemble_node_ranked nodes rank Hrank big st0 k Hsh0 Hbig)
              st2 Hsh) as [Hno _].
  destruct (forEach (assemble_node big) (JsObject.keys (references st2))
              st2) as [st| |]; [eauto | congruence | congruence].
Qed.

(** On an input none of whose identifiers is a property name of
    [Object.prototype], in which the steps of line 94 (a [null]
    [previousSiblingId] reads the entry ["null"]) form no cycle and every
    [parentId] that is neither [null] nor empty names a node, the three
    passes come to their end and leave the arrays, with walks of at most as
    many steps as the input has nodes.  (Line 111 is not covered.) *)
Theorem completes nodes fuel :
  prototype_free nodes = true ->
  acyclic nodes -> parents_resolve nodes -> List.length nodes <= fuel ->
  exists st, buildTree fuel nodes = Done st.
Proof. intros _. apply passes_complete. Qed.

Lemma chain_ABCD_acyclic : acyclic chain_ABCD.
Proof.
  exists (fun s => match s with
                   | String c _ => nat_of_ascii c
                   | EmptyString => 0
                   end).
  intros n m [<-|[<-|[<-|[<-|[<-|[]]]]]] [<-|[<-|[<-|[<-|[<-|[]]]]]] He;
    try discriminate He; vm_compute; lia.
Defined.

Lemma chain_ABCD_parents : parents_resolve chain_ABCD.
Proof.
  intros n p [<-|[<-|[<-|[<-|[<-|[]]]]]] Hp _; inversion Hp; simpl; tauto.
Defined.

(** The run [A <- B <- C <- D] under [P], with walks of five steps. *)
Lemma completes_witness :
  prototype_free chain_ABCD = true
  /\ acyclic chain_ABCD /\ parents_resolve chain_ABCD
  /\ List.length chain_ABCD <= 5
  /\ exists st, buildTree 5 chain_ABCD = Done st.
Proof.
  split; [reflexivity|].
  split; [exact chain_ABCD_acyclic|].
  split; [exact chain_ABCD_parents|].
  split; [apply Nat.le_refl|].
  exact (completes chain_ABCD 5 eq_refl chain_ABCD_acyclic
           chain_ABCD_parents (Nat.le_refl 5)).
Defined.

(** ** An index without a last node *)

(** On an input none of whose identifiers is a property name of
    [Object.prototype], when every node is named by some node (as in a
    closed cycle), no walk is started: the three passes come to their end
    at once, the root array is empty and so is every [children] array; the
    nodes are dropped without a fault. *)
Theorem no_last_node_empty nodes fuel :
  prototype_free nodes = true ->
  all_named nodes ->
  exists st,
    buildTree fuel nodes = Done st
    /\ tree st = []
    /\ forall k r, JsObject.get k (references st) = Some r ->
         children r = [].
Proof.
  intros _ Hall.
  destruct (detection_spec nodes) as (st & H & Hr & Ht & _ & Hm).
  exists st. unfold buildTree. rewrite H. simpl. split; [|split].
  - unfold phase3. apply forEach_skipped. intros k Hk.
    apply (shaped_keys nodes st k (shaped_detection _ _ H)) in Hk.
    destruct (latest k nodes) as [n|] eqn:El; [|congruence].
    destruct (latest_some _ _ _ El) as [Hin Hid].
    eexists. split; [rewrite Hm, El; reflexivity|]. left. simpl.
    rewrite <- Hid, (Hall n Hin). reflexivity.
  - exact Ht.
  - intros k r. rewrite Hr, phase1_references.
    destruct (latest k nodes); simpl; [|discriminate].
    intros E. now inversion E.
Qed.

(** The closed cycle [A <-> B]. *)
Lemma no_last_node_empty_witness :
  prototype_free two_cycle = true
  /\ all_named two_cycle
  /\ exists st,
       buildTree 0 two_cycle = Done st
       /\ tree st = []
       /\ forall k r, JsObject.get k (references st) = Some r ->
            children r = [].
Proof.
  assert (H : all_named two_cycle).
  { intros n [<-|[<-|[]]]; reflexivity. }
  split; [reflexivity|].
  split; [exact H | exact (no_last_node_empty two_cycle 0 eq_refl H)].
Defined.

(** ** Well-formed inputs: the order of the calls *)




Section AnyOrder.
Variable nodes : list NodeInput.
Hypothesis wf : well_formed nodes.
Hypothesis res : resolved nodes.
Hypothesis plain : plain_ids nodes.


End AnyOrder.



(** [P] with its children [A <- B]: the group of [A]. *)
Lemma one_last_node_witness :
  NoDup (map nodeId small_tree) /\ chains small_tree
  /\ ~ In "null" (map nodeId small_tree)
  /\ phase2 small_tree (phase1 small_tree) = Done (detected small_tree)
  /\ In (mk "A" (Some "P") None) small_tree
  /\ exists d,
       last_nodes (detected small_tree) (group (Some "P") small_tree) = [d].
Proof.
  assert (Hnull : ~ In "null" (map nodeId small_tree))
    by (simpl; intuition discriminate).
  assert (Hin : In (mk "A" (Some "P") None) small_tree)
    by (simpl; tauto).
  split; [apply small_tree_well_formed|].
  split; [apply small_tree_well_formed|].
  split; [exact Hnull|]. split; [reflexivity|]. split; [exact Hin|].
  exact (one_last_node small_tree
           (proj1 (proj1 small_tree_well_formed))
           (proj2 (proj1 small_tree_well_formed))
           Hnull (detected small_tree) (mk "A" (Some "P") None)
           eq_refl Hin).
Defined.

(** ** Several last nodes in one group *)

Lemma forEach_app {A S : Type} (f : S -> A -> outcome S) (l1 l2 : list A) :
  forall st,
    forEach f (l1 ++ l2) st = (st1 <- forEach f l1 st ;; forEach f l2 st1).
Proof.
  induction l1 as [|a l1 IH]; intros st; simpl; [reflexivity|].
  destruct (f st a); simpl; auto.
Qed.

Section FirstLastNode.
Variables (nodes : list NodeInput) (p d : string) (nd : NodeInput).
Variables (ks1 ks2 : list string).
Hypothesis parent_entry_p : latest p nodes <> None.
Hypothesis d_entry : latest d nodes = Some nd.
Hypothesis d_parent : parentId nd = Some p.
Hypothesis p_truthy : p <> "".
Hypothesis d_last : existsb (names d) nodes = false.
Hypothesis d_first :
  forall k n, In k ks1 -> latest k nodes = Some n ->
    existsb (names k) nodes = false -> property_key (parentId n) <> p.

Lemma waiting_step fuel st k st' :
  In k ks1 -> waiting nodes p st -> step_of fuel st k st' -> waiting nodes p st'.
Proof.
  intros Hk (Hsh & rp & mp & Hrp & Hmp & Hs) Hstep.
  split; [eapply shaped_extends; eauto using step_extends|].
  assert (Hother : forall r m,
            JsObject.get k (metaData st) = Some m -> isLastNode m = true ->
            JsObject.get k (references st) = Some r ->
            property_key (parentId (node r)) <> p).
  { intros r m Hm Hl Hr.
    destruct (shaped_node _ _ _ _ Hsh Hr) as (Hlat & _).
    apply (d_first k (node r) Hk Hlat).
    rewrite (shaped_last _ _ _ _ Hsh Hm) in Hl.
    now apply negb_true_iff in Hl. }
  destruct Hstep as [-> _|r m l pk q qm Hm Hl Hr Hpk Ht Hq Hqm Hsq Hw ->
       |r m l pk Hm Hl Hr Hpk Ht Hq Hsq Hw ->
       |r m l pk q qm Hm Hl Hr Hpk Ht Hq Hqm Hsq Hw ->]; simpl.
  - eauto 6.
  - assert (E : pk <> p) by (rewrite Hpk; eauto).
    rewrite !get_set_other by exact E. eauto 6.
  - eauto 6.
  - assert (E : pk <> p) by (rewrite Hpk; eauto).
    rewrite !get_set_other by exact E. eauto 6.
Qed.

(** On an input none of whose identifiers is a property name of
    [Object.prototype], when a sibling group has several last nodes, the
    one that [Object.keys] lists first is the one whose walk becomes the
    [children] of the parent; the guard of line 86 skips the others. *)
Theorem first_last_node_wins fuel st :
  prototype_free nodes = true ->
  JsObject.keys (references (phase1 nodes)) = ks1 ++ d :: ks2 ->
  buildTree fuel nodes = Done st ->
  exists rp,
    JsObject.get p (references st) = Some rp
    /\ backward (references st) d (children rp).
Proof.
  intros _ Hkeys H. unfold buildTree in H.
  destruct (detection_spec nodes) as (st2 & H2 & Hr & _ & _ & Hm2).
  rewrite H2 in H. simpl in H. unfold phase3 in H.
  rewrite Hr, Hkeys, forEach_app in H.
  assert (Hsh2 := shaped_detection _ _ H2).
  destruct (forEach (assemble_node fuel) ks1 st2) as [sta| |] eqn:Ha;
    simpl in H; try discriminate.
  destruct (assemble_node fuel sta d) as [stb| |] eqn:Hd; simpl in H;
    try discriminate.
  assert (Hwa : waiting nodes p sta).
  { apply (forEach_invariant (waiting nodes p) (assemble_node fuel) ks1)
      with (st := st2); [| |exact Ha].
    - intros s a s' Hin Hw Hstep.
      apply (waiting_step fuel s a s' Hin Hw).
      now apply assemble_node_step.
    - split; [exact Hsh2|].
      destruct (latest p nodes) as [pn|] eqn:Ep; [|congruence].
      destruct (latest_some _ _ _ Ep) as [_ Hid].
      rewrite <- Hid in Ep.
      destruct (shaped_get _ _ _ Hsh2 Ep) as (rp & Hrp & _).
      rewrite Hid in Hrp, Ep. exists rp. eexists.
      split; [exact Hrp|]. split; [rewrite Hm2, Ep; reflexivity|].
      reflexivity. }
  destruct Hwa as (Hsha & rp & mp & Hrp & Hmp & Hs).
  assert (Hstep := assemble_node_step _ _ _ _ Hd).
  assert (Hexta := step_extends _ _ _ _ Hstep).
  destruct (phase3_run _ _ _ _ H) as [Hextb _].
  assert (Hfro := forEach_frozen _ _ _ _ H).
  destruct (latest_some _ _ _ d_entry) as [_ Hidd].
  rewrite <- Hidd in d_entry.
  destruct (shaped_get _ _ _ Hsha d_entry) as (rd & Hrd & Hnd).
  rewrite Hidd in Hrd.
  destruct (shaped_meta _ _ d Hsha) as [md Hmd];
    [rewrite <- Hidd; congruence|].
  assert (Hld := shaped_last _ _ _ _ Hsha Hmd). rewrite d_last in Hld.
  simpl in Hld.
  assert (Hpk : property_key (parentId (node rd)) = p)
    by (now rewrite Hnd, d_parent).
  assert (Htr : truthy (parentId (node rd)) = true).
  { rewrite Hnd, d_parent. simpl. apply negb_true_iff.
    now apply String.eqb_neq. }
  destruct Hstep as [-> Hsk|r m l pk q qm Hm Hl Hr' Hpk' Ht Hq Hqm Hsq Hw E
       |r m l pk Hm Hl Hr' Hpk' Ht Hq Hsq Hw E
       |r m l pk q qm Hm Hl Hr' Hpk' Ht Hq Hqm Hsq Hw E].
  - exfalso. destruct Hsk as (m & Hm & [Hl|(r & Hr' & Hsorted)]);
      [congruence|].
    assert (r = rd) by congruence. subst r.
    rewrite Hpk, Hrp, Hmp in Hsorted. simpl in Hsorted. congruence.
  - assert (r = rd) by congruence. subst r.
    rewrite Hpk in Hpk'. subst pk.
    assert (Hb : backward (references sta) d l).
    { rewrite <- Hrd in Hw.
      apply (walk_backward _ (shaped_keyed _ _ Hsha) _ _ _ Hw).
      congruence. }
    assert (Hpb : JsObject.get p (references stb)
                  = Some (set_children q l))
      by (subst stb; simpl; apply get_set_same).
    assert (Hmb : JsObject.get p (metaData stb)
                  = Some (set_childrenAreSorted qm true))
      by (subst stb; simpl; apply get_set_same).
    destruct (Hfro p _ _ Hmb eq_refl Hpb) as (rp' & Hrp' & Hch).
    exists rp'. split; [exact Hrp'|]. rewrite Hch. simpl.
    apply (backward_extends (references sta)); [|exact Hb].
    intros k. rewrite (ext_node _ _ Hextb), (ext_node _ _ Hexta).
    reflexivity.
  - assert (r = rd) by congruence. subst r. congruence.
  - assert (r = rd) by congruence. subst r. congruence.
Qed.
End FirstLastNode.

(** [B] and [C] are both last nodes under [P]; [B] is listed first. *)
Lemma first_last_node_wins_witness :
  prototype_free two_last = true
  /\ JsObject.keys (references (phase1 two_last)) = ["P"; "A"] ++ "B" :: ["C"]
  /\ buildTree 2 two_last = Done (assembled_with 2 (detected two_last))
  /\ exists rp,
       JsObject.get "P" (references (assembled_with 2 (detected two_last)))
       = Some rp
       /\ backward (references (assembled_with 2 (detected two_last))) "B"
            (children rp).
Proof.
  split; [reflexivity|]. split; [reflexivity|]. split; [reflexivity|].
  apply (first_last_node_wins two_last "P" "B"
           (mk "B" (Some "P") (Some "A")) ["P"; "A"] ["C"])
    with (fuel := 2).
  - discriminate.
  - reflexivity.
  - reflexivity.
  - discriminate.
  - reflexivity.
  - intros k n [<-|[<-|[]]] Hl Hu; inversion Hl; subst; simpl;
      discriminate.
  - reflexivity.
  - reflexivity.
  - reflexivity.
Defined.

(** ** One sibling run, from the input to the tree *)



(** A run that is not the whole sibling group is not placed either: of the
    runs [A <- B] and [A <- C] under [P] only the first becomes the
    [children] of [P]. *)
Example one_run_per_group : ~ runs_in_order two_last.
Proof.
  intros H.
  destruct (H "P" [mk "A" (Some "P") None; mk "C" (Some "P") (Some "A")])
    as (fuel & st & r & Hrun & Hr & Hc).
  - discriminate.
  - intros n [<-|[<-|[]]]; simpl; tauto.
  - simpl. tauto.
  - simpl. tauto.
  - assert (E : buildTree fuel two_last = OutOfFuel
                \/ buildTree fuel two_last
                   = Done (assembled_with 2 (detected two_last))).
    { destruct fuel as [|[|[|[|fuel]]]];
        [now left|now left|now right|now right|].
      right.
      rewrite (walks_bounded_run two_last (S (S (S (S fuel)))))
        by (simpl; lia).
      reflexivity. }
    destruct E as [E|E]; rewrite E in Hrun; [discriminate Hrun|].
    inversion Hrun. subst st.
    simpl in Hr. inversion Hr. subst r. discriminate Hc.
Qed.


